(** * Vehicle control runtime: model and verification

    A shallow embedding of the Python sources

      - [src/main.py]               (class [VehicleController])
      - [src/hardware/processes.py] (classes [LiDARProcess], [MotorProcess],
                                     [ExplorerProcess])
      - [src/config/settings.py]    (class [ExplorerConfig])

    Conventions.

    - A Python [float] is modelled by a rational number of [Q]: ordering
      tests are those of the code, arithmetic is exact (rounding is not
      modelled).  The non-finite floats appear only where the code makes
      them: [float('inf')] as the start value of [nearest], and the result
      of [float(...)] on a request field.
    - A [multiprocessing.Queue] is a list, [put] appends at the end.
    - Each worker loop is driven by a script: what the loop observes at
      each iteration (the stop event, the head of its queue, the outcome of
      a device call).  The model is a function of that script, and its
      result is the trace of the calls the worker made.
    - Logging is left out, except where a log line is the only action of
      a branch; [time.sleep] is recorded for the range scanner only, whose
      backoff delay is part of its retry policy. *)

From Stdlib Require Import ZArith QArith Qround Lqa Lia List Bool.
From stdpp Require Import gmap strings list.
Import ListNotations.

Local Open Scope string_scope.
Local Open Scope list_scope.
Local Open Scope Z_scope.

(** ** Python values shared by the workers *)

(** The exceptions that the modelled code can see. *)
Inductive exn : Type :=
| ValueError | KeyError | TypeError | AttributeError | DeviceError.

(** Items of the command channel: [('move', (left, right))] and
    [('emergency_stop', None)]. *)
Inductive command : Type :=
| Move (left right : Q)
| EmergencyStop.

(** [int(x)] of a float, and the store of a float into an [int64] array
    cell: truncation toward zero. *)
Definition Qtrunc (x : Q) : Z := Z.quot (Qnum x) (Zpos (Qden x)).

(** [x % m] for floats and a positive [m]: the result has the sign of
    [m]. *)
Definition py_mod (x m : Q) : Q := (x - m * inject_Z (Qfloor (x / m)))%Q.

(** [a <= x <= b] as one boolean. *)
Definition Qbetween (a x b : Q) : bool := Qle_bool a x && Qle_bool x b.

Definition Qlt_bool (x y : Q) : bool := negb (Qle_bool y x).

(** ** src/main.py: the supervisor *)

Module VehicleController.

(** The classes of [hardware.processes]. *)
Inductive worker : Type :=
| LiDARProcess | CameraProcess | MotorProcess | ExplorerProcess.

(** A process object: its class and the identity of the instance. *)
Record process : Type := { p_class : worker; p_id : nat }.

#[global] Instance worker_eq_dec : EqDecision worker.
Proof. solve_decision. Defined.

#[global] Instance process_eq_dec : EqDecision process.
Proof. solve_decision. Defined.

Definition is_explorer (p : process) : bool :=
  match p_class p with ExplorerProcess => true | _ => false end.

(** The fields of [VehicleController] that the handlers read or write.
    [running] is not a field of the object: it lists the process objects
    that were started and not terminated since, which is what the
    operating system holds. *)
Record t : Type := {
  mode : string;
  processes : gmap string process;
  motor_queue : list command;
  running : list process;
  next_id : nat
}.

Record response : Type := { status : Z; text : string }.

Definition OK : response := {| status := 200; text := "OK" |}.

(** [__init__], [_init_processes] and the loop of [start] that starts
    every process. *)
Definition init : t :=
  let lidar := {| p_class := LiDARProcess; p_id := 0 |} in
  let camera := {| p_class := CameraProcess; p_id := 1 |} in
  let motor := {| p_class := MotorProcess; p_id := 2 |} in
  {| mode := "manual";
     processes := <["motor" := motor]> (<["camera" := camera]> (<["lidar" := lidar]> ∅));
     motor_queue := [];
     running := [lidar; camera; motor];
     next_id := 3 |}.

(** [_validate_speed] *)
Definition _validate_speed (speed : Q) : bool := Qbetween (-1) speed 1.

(** What [float(data[key])] gives for one field of the request body: a
    finite float, a non-finite one ([nan], [inf], [-inf]), or an
    exception ([KeyError] for a missing key, [ValueError] for a string
    that is no number, [TypeError] for another JSON value). *)
Inductive conv : Type :=
| Float (x : Q)
| NonFinite
| Raises (e : exn).

(** The body of a [/control] request: [request.json()] fails, or gives
    [data]. *)
Inductive control_body : Type :=
| BadJson
| Body (left right : conv).

(** The two [except] clauses of [handle_control].  The text of a 500
    answer is [str(e)] in the code; it is abbreviated here, and nothing
    below depends on it. *)
Definition control_except (e : exn) : response :=
  match e with
  | ValueError => {| status := 400; text := "Invalid speed format" |}
  | _ => {| status := 500; text := "error" |}
  end.

Definition put_motor (c : command) (self : t) : t :=
  {| mode := mode self;
     processes := processes self;
     motor_queue := motor_queue self ++ [c];
     running := running self;
     next_id := next_id self |}.

(** [handle_control]: the mode test comes first; then the body is read,
    [left] is converted before [right], and both are validated.  A
    non-finite float fails [-1.0 <= speed <= 1.0]. *)
Definition handle_control (self : t) (req : control_body) : t * response :=
  if negb (String.eqb (mode self) "manual") then
    (self, {| status := 400; text := "Not in manual mode" |})
  else
    match req with
    | BadJson => (self, control_except ValueError)
    | Body (Raises e) _ => (self, control_except e)
    | Body _ (Raises e) => (self, control_except e)
    | Body (Float l) (Float r) =>
        if negb (_validate_speed l && _validate_speed r) then
          (self, {| status := 400; text := "Invalid speed values" |})
        else (put_motor (Move l r) self, OK)
    | Body _ _ => (self, {| status := 400; text := "Invalid speed values" |})
    end.

(** [p.terminate(); p.join()] *)
Definition terminate (p : process) (l : list process) : list process :=
  filter (fun q => q ≠ p) l.

(** The block shared by [handle_mode] and [handle_emergency]:
    [if 'explorer' in self.processes: terminate, join, del]. *)
Definition stop_explorer (self : t) : t :=
  match processes self !! "explorer" with
  | Some p =>
      {| mode := mode self;
         processes := delete "explorer" (processes self);
         motor_queue := motor_queue self;
         running := terminate p (running self);
         next_id := next_id self |}
  | None => self
  end.

(** [self.processes['explorer'] = ExplorerProcess(...)] and [.start()] *)
Definition start_explorer (self : t) : t :=
  let p := {| p_class := ExplorerProcess; p_id := next_id self |} in
  {| mode := mode self;
     processes := <["explorer" := p]> (processes self);
     motor_queue := motor_queue self;
     running := running self ++ [p];
     next_id := S (next_id self) |}.

Definition set_mode (m : string) (self : t) : t :=
  {| mode := m;
     processes := processes self;
     motor_queue := motor_queue self;
     running := running self;
     next_id := next_id self |}.

(** [handle_mode]; the body is [None] when [request.json()] or
    [data['mode']] raises. *)
Definition handle_mode (self : t) (req : option string) : t * response :=
  match req with
  | None => (self, {| status := 500; text := "error" |})
  | Some new_mode =>
      if negb (String.eqb new_mode "manual" || String.eqb new_mode "explore") then
        (self, {| status := 400; text := "Invalid mode" |})
      else if String.eqb new_mode (mode self) then
        (self, {| status := 200; text := "Mode unchanged" |})
      else if String.eqb new_mode "explore" then
        (set_mode new_mode (start_explorer self),
         {| status := 200; text := ("Mode changed to " ++ new_mode)%string |})
      else
        (set_mode new_mode (stop_explorer self),
         {| status := 200; text := ("Mode changed to " ++ new_mode)%string |})
  end.

(** [handle_emergency] *)
Definition handle_emergency (self : t) : t * response :=
  (set_mode "manual" (stop_explorer (put_motor EmergencyStop self)),
   {| status := 200; text := "Emergency stop activated" |}).

(** The operations of the control surface that change the controller. *)
Inductive op : Type :=
| Control (req : control_body)
| SetMode (req : option string)
| Emergency.

Definition apply (self : t) (o : op) : t :=
  match o with
  | Control req => fst (handle_control self req)
  | SetMode req => fst (handle_mode self req)
  | Emergency => fst (handle_emergency self)
  end.

(** The controller after a sequence of requests, served one at a time. *)
Definition serve (ops : list op) : t := fold_left apply ops init.

(** The explorer processes that are running. *)
Definition navigators (self : t) : list process :=
  filter (fun p => is_explorer p = true) (running self).

End VehicleController.

(** ** src/hardware/processes.py: the range scanner *)

Module LiDARProcess.

(** The attributes set by [__init__]. *)
Definition max_retries : Z := 5.
Definition retry_delay : Q := 3.
Definition min_quality : Z := 15.
Definition measurement_delay : Q := 1 # 10.

(** One raw reading of [iter_scans]: [(quality, angle, distance)], the
    distance in millimetres. *)
Definition reading : Type := (Z * Q * Q)%type.

(** One point of a processed scan: [(angle, distance)], in metres. *)
Definition point : Type := (Q * Q)%type.

(** The body of the [for] loop of [_process_scan]. *)
Definition _process_reading (processed_scan : list point) (r : reading) : list point :=
  let '(quality, angle, distance) := r in
  if min_quality <=? quality then processed_scan ++ [(angle, (distance / 1000)%Q)]
  else processed_scan.

(** [_process_scan]: the loop appends to [processed_scan], and an empty
    result is returned as [None]. *)
Definition _process_scan (scan_data : list reading) : option (list point) :=
  match fold_left _process_reading scan_data [] with
  | [] => None
  | processed_scan => Some processed_scan
  end.

(** The methods of the [RPLidar] object that the worker calls. *)
Inductive device_call : Type :=
| rplidar_new | stop | disconnect | connect_ | start_motor
| get_info | get_health | stop_motor | iter_scans.

#[global] Instance device_call_eq_dec : EqDecision device_call.
Proof. solve_decision. Defined.

(** What the worker does, in order. *)
Inductive event : Type :=
| Returned (c : device_call)        (* the call returned *)
| Raised (c : device_call)          (* the call raised *)
| Put (batch : list point)          (* self.queue.put(('scan', batch)) *)
| Caught                            (* the except clause of run is entered *)
| Sleep (seconds : Q)
| CleanupError                      (* the except clause of _cleanup_lidar *)
| MaxRetries.                       (* "Max retry attempts reached" *)

(** The calls of [_init_lidar], in order. *)
Definition init_calls : list device_call :=
  [rplidar_new; stop; disconnect; connect_; start_motor; get_info; get_health].

(** The calls of [_cleanup_lidar], in order. *)
Definition cleanup_calls : list device_call := [stop_motor; stop; disconnect].

(** A sequence of calls of which the one at index [failing], when there is
    one, raises: the calls before it return and those after it are not
    made. *)
Fixpoint attempt (calls : list device_call) (failing : option nat) : list event :=
  match calls, failing with
  | [], _ => []
  | c :: _, Some O => [Raised c]
  | c :: rest, Some (S n) => Returned c :: attempt rest (Some n)
  | c :: rest, None => Returned c :: attempt rest None
  end.

Definition raises (calls : list device_call) (failing : option nat) : bool :=
  match failing with
  | Some n => bool_decide (n < length calls)%nat
  | None => false
  end.

(** How the [for] loop over [iter_scans] ends. *)
Inductive stream_end : Type :=
| StreamRaises       (* the generator raises *)
| StreamExhausted    (* the generator ends *)
| StreamStopped.     (* the stop event is seen set after a scan was yielded *)

(** What one iteration of the [while] loop of [run] observes. *)
Record round : Type := {
  head_stop : bool;                (* stop_event.is_set() at the while test *)
  connect : option nat;            (* the call of _init_lidar that raises *)
  scans : list (list reading);     (* the scans yielded and processed *)
  ending : stream_end;
  teardown : option nat            (* the call of _cleanup_lidar that raises *)
}.

(** The local variables of [run]; [lidar] is [true] when the variable
    holds a device. *)
Record state : Type := { retry_count : Z; lidar : bool }.

(** [_init_lidar]: the calls on the device, and whether it returned a
    device.  Its two settle delays [time.sleep(1)] are not recorded. *)
Definition _init_lidar (failing : option nat) : list event * bool :=
  (attempt init_calls failing, negb (raises init_calls failing)).

(** [_cleanup_lidar]: nothing happens when [lidar is None]; otherwise the
    three calls sit in one [try], so the first to raise ends the
    teardown. *)
Definition _cleanup_lidar (held : bool) (failing : option nat) : list event :=
  if held then
    attempt cleanup_calls failing ++
    (if raises cleanup_calls failing then [CleanupError] else [])
  else [].

(** The body of the [for] loop, for one scan that passed the stop test. *)
Definition scan_step (scan : list reading) : list event :=
  match _process_scan scan with
  | Some processed_scan => [Put processed_scan; Sleep measurement_delay]
  | None => [Sleep measurement_delay]
  end.

Inductive outcome : Type := Continue | Break.

(** The [except] clause of [run], entered with the value that [lidar]
    has when the exception arrives. *)
Definition except_clause (st : state) (failing : option nat) : state * list event * outcome :=
  let retry_count := retry_count st + 1 in
  let st' := {| retry_count := retry_count; lidar := false |} in
  let evs := Caught :: _cleanup_lidar (lidar st) failing in
  if retry_count <? max_retries then (st', evs ++ [Sleep retry_delay], Continue)
  else (st', evs ++ [MaxRetries], Break).

(** The [for] loop and what follows it in one iteration of the [while]
    loop, with a device held. *)
Definition streaming (st : state) (r : round) : state * list event * outcome :=
  let evs := Returned iter_scans :: concat (map scan_step (scans r)) in
  match ending r with
  | StreamRaises =>
      let '(st', evs', o) := except_clause st (teardown r) in
      (st', evs ++ Raised iter_scans :: evs', o)
  | StreamExhausted => (st, evs, Continue)
  | StreamStopped => (st, evs, Break)
  end.

(** The body of the [while] loop. *)
Definition iteration (st : state) (r : round) : state * list event * outcome :=
  if lidar st then streaming st r
  else
    let '(evs, ok) := _init_lidar (connect r) in
    if ok then
      let '(st', evs', o) := streaming {| retry_count := 0; lidar := true |} r in
      (st', evs ++ evs', o)
    else
      let '(st', evs', o) := except_clause st (teardown r) in
      (st', evs ++ evs', o).

Inductive status : Type :=
| Running     (* the script ended inside the loop *)
| Stopped.    (* run returned *)

(** The [while] loop of [run] and the cleanup after it. *)
Fixpoint loop (st : state) (script : list round) : status * state * list event :=
  match script with
  | [] => (Running, st, [])
  | r :: script' =>
      if negb (head_stop r) && (retry_count st <? max_retries) then
        let '(st', evs, o) := iteration st r in
        match o with
        | Continue =>
            let '(s, st'', evs') := loop st' script' in (s, st'', evs ++ evs')
        | Break => (Stopped, st', evs ++ _cleanup_lidar (lidar st') (teardown r))
        end
      else (Stopped, st, _cleanup_lidar (lidar st) (teardown r))
  end.

(** [run] *)
Definition run (script : list round) : status * state * list event :=
  loop {| retry_count := 0; lidar := false |} script.

(** Whether an event is the call [c], returning or raising. *)
Definition is_call (c : device_call) (e : event) : bool :=
  match e with
  | Returned c' | Raised c' => bool_decide (c' = c)
  | _ => false
  end.

Definition is_caught (e : event) : bool :=
  match e with Caught => true | _ => false end.

(** The number of events of a trace that satisfy [p]. *)
Definition count (p : event -> bool) (trace : list event) : nat :=
  length (List.filter p trace).

End LiDARProcess.

(** ** src/hardware/processes.py: the drive worker *)

Module MotorProcess.

(** The line offsets of [pin_configs], from [HardwareConfig]. *)
Definition pin_configs : list (Z * string) :=
  [(17, "left_fwd"); (27, "left_bwd"); (4, "left_en");
   (5, "right_fwd"); (6, "right_bwd"); (13, "right_en")].

(** The lines that [_init_gpio] requests, one per key of
    [request_config]; [run] uses the result as a mapping and walks its
    [values()]. *)
Definition requested_lines : list Z := map fst pin_configs.

(** The methods that the class body of [MotorProcess] defines.  [run]
    also calls [self._set_motors] and [self._emergency_stop]; neither the
    class nor its base [multiprocessing.Process] defines them. *)
Definition methods : list string := ["__init__"; "_init_gpio"; "run"].

Inductive event : Type :=
| SetMotors (l r : Q)      (* _set_motors(pins, l, r) returned *)
| MotorsStopped            (* _emergency_stop(pins) returned *)
| Released (line : Z)      (* pin.release() returned *)
| ReleaseError (line : Z)  (* pin.release() raised: logged *)
| Logged (e : exn).        (* the except clause of run *)

(** What one iteration of the [while] loop observes. *)
Inductive tick : Type :=
| StopSet                             (* stop_event.is_set() *)
| Empty                               (* queue.empty() *)
| Receive (c : command) (ok : bool).  (* queue.get(); ok: the hardware lets the dispatched call return *)

Record script : Type := {
  gpio : bool;                 (* _init_gpio returns the lines *)
  ticks : list tick;
  final_stop : bool;           (* the hardware lets the last _emergency_stop return *)
  release : Z -> bool          (* pin.release() returns *)
}.

(** A call [self.name(...)]: [AttributeError] when the class has no such
    method; otherwise the method runs, and returns or raises as the
    hardware decides. *)
Definition call (cls : list string) (name : string) (ok : bool) (done : event)
  : list event * option exn :=
  if bool_decide (name ∈ cls) then
    if ok then ([done], None) else ([], Some DeviceError)
  else ([], Some AttributeError).

(** The dispatch on the tag of a command. *)
Definition dispatch (cls : list string) (c : command) (ok : bool) : list event * option exn :=
  match c with
  | Move l r => call cls "_set_motors" ok (SetMotors l r)
  | EmergencyStop => call cls "_emergency_stop" ok MotorsStopped
  end.

Inductive loop_end : Type :=
| LoopStopped            (* the while test saw the stop event *)
| LoopRaised (e : exn)   (* an exception left the loop *)
| LoopRunning.           (* the script ended inside the loop *)

(** The [while] loop of [run]. *)
Fixpoint loop (cls : list string) (ticks : list tick) : list event * loop_end :=
  match ticks with
  | [] => ([], LoopRunning)
  | StopSet :: _ => ([], LoopStopped)
  | Empty :: rest => loop cls rest
  | Receive c ok :: rest =>
      match dispatch cls c ok with
      | (evs, Some e) => (evs, LoopRaised e)
      | (evs, None) => let '(evs', e) := loop cls rest in (evs ++ evs', e)
      end
  end.

(** [pin.release()] inside its own [try]. *)
Definition release_line (s : script) (line : Z) : event :=
  if release s line then Released line else ReleaseError line.

(** The [finally] clause: [if pins:] holds for a non-empty mapping; the
    emergency stop is not inside a [try], the releases are. *)
Definition finally_clause (cls : list string) (s : script) (pins : option (list Z))
  : list event * option exn :=
  match pins with
  | None | Some [] => ([], None)
  | Some lines =>
      match call cls "_emergency_stop" (final_stop s) MotorsStopped with
      | (evs, Some e) => (evs, Some e)
      | (evs, None) => (evs ++ map (release_line s) lines, None)
      end
  end.

Inductive exit : Type :=
| Returns              (* run returned *)
| Escapes (e : exn)    (* an exception left run *)
| StillRunning.

(** [run], for a class with the methods [cls]. *)
Definition run_with (cls : list string) (s : script) : list event * exit :=
  if gpio s then
    match loop cls (ticks s) with
    | (evs, LoopRunning) => (evs, StillRunning)
    | (evs, LoopStopped) =>
        let '(evs', e) := finally_clause cls s (Some requested_lines) in
        (evs ++ evs', match e with Some e => Escapes e | None => Returns end)
    | (evs, LoopRaised e) =>
        let '(evs', e') := finally_clause cls s (Some requested_lines) in
        (evs ++ Logged e :: evs', match e' with Some e' => Escapes e' | None => Returns end)
    end
  else
    let '(evs', e') := finally_clause cls s None in
    (Logged DeviceError :: evs', match e' with Some e' => Escapes e' | None => Returns end).

(** [MotorProcess.run] *)
Definition run (s : script) : list event * exit := run_with methods s.

(** The end of a trace that the exit contract asks for: the motors are
    stopped, then a release is attempted on every line. *)
Definition is_release (line : Z) (e : event) : Prop :=
  e = Released line \/ e = ReleaseError line.

Definition safe_exit (trace : list event) : Prop :=
  exists before releases,
    trace = before ++ MotorsStopped :: releases /\
    Forall2 is_release requested_lines releases.

Definition is_released (e : event) : bool :=
  match e with Released _ | ReleaseError _ => true | _ => false end.

End MotorProcess.

(** ** src/config/settings.py *)

Module settings.

Record ExplorerConfig : Type := {
  MAP_SIZE : Z;
  RESOLUTION : Q;
  MIN_DISTANCE : Q;
  TURN_SPEED : Q;
  FORWARD_SPEED : Q
}.

(** [config.explorer], with the defaults of the dataclass. *)
Definition explorer : ExplorerConfig :=
  {| MAP_SIZE := 1000;
     RESOLUTION := 1 # 20;
     MIN_DISTANCE := 3 # 10;
     TURN_SPEED := 3 # 10;
     FORWARD_SPEED := 1 # 2 |}.

End settings.

(** ** src/hardware/processes.py: the explorer *)

Module ExplorerProcess.
Import settings.

(** The three numpy functions that [run] calls.  They are parameters of
    the model: nothing below depends on how they round. *)
Class NumPy : Type := {
  radians : Q -> Q;
  cos : Q -> Q;
  sin : Q -> Q
}.

(** A rational stand-in, to run the model: pi is 355/113, and the cosine
    and sine are their Taylor polynomials of degree 4 and 5. *)
Definition np_rational : NumPy :=
  {| radians := fun d => (d * (355 # 113) / 180)%Q;
     cos := fun x => (1 - x * x / 2 + x * x * x * x / 24)%Q;
     sin := fun x => (x - x * x * x / 6 + x * x * x * x * x / 120)%Q |}.

(** The value of [nearest]: [float('inf')] or a distance of the scan. *)
Inductive distance : Type :=
| inf
| finite (d : Q).

(** [dist < nearest] *)
Definition closer (dist : Q) (nearest : distance) : bool :=
  match nearest with
  | inf => true
  | finite d => Qlt_bool dist d
  end.

(** [nearest < bound] *)
Definition below (nearest : distance) (bound : Q) : bool :=
  match nearest with
  | inf => false
  | finite d => Qlt_bool d bound
  end.

(** The local variables of [run].  [position] is [np.array] of two
    Python ints, an [int64] array: a float stored into it is truncated. *)
Record state : Type := {
  map_data : list (list Q);
  position : Z * Z;
  orientation : Q
}.

(** [map_data[y, x] = 1], used for indices inside the array. *)
Definition set_cell (m : list (list Q)) (y x : Z) : list (list Q) :=
  alter (fun row => <[Z.to_nat x := 1%Q]> row) (Z.to_nat y) m.

(** [map_data[y, x]] *)
Definition cell (m : list (list Q)) (y x : nat) : option Q :=
  match m !! y with
  | Some row => row !! x
  | None => None
  end.

Section WithConfig.
Context {np : NumPy} (cfg : ExplorerConfig).

(** The variables before the loop. *)
Definition start : state :=
  let n := Z.to_nat (MAP_SIZE cfg) in
  {| map_data := repeat (repeat 0%Q n) n;
     position := (MAP_SIZE cfg / 2, MAP_SIZE cfg / 2);
     orientation := 0 |}.

(** The body of [for angle, dist in scan], on [nearest] and [map_data]. *)
Definition point_step (st : state) (acc : distance * list (list Q)) (pt : Q * Q)
  : distance * list (list Q) :=
  let '(angle, dist) := pt in
  let '(nearest, m) := acc in
  let nearest := if Qbetween (-30) angle 30 && closer dist nearest then finite dist else nearest in
  let rad_angle := radians (angle + orientation st)%Q in
  let x := Qtrunc (inject_Z (fst (position st)) + dist * cos rad_angle / RESOLUTION cfg)%Q in
  let y := Qtrunc (inject_Z (snd (position st)) + dist * sin rad_angle / RESOLUTION cfg)%Q in
  let m :=
    if (0 <=? x) && (x <? MAP_SIZE cfg) && (0 <=? y) && (y <? MAP_SIZE cfg)
    then set_cell m y x else m in
  (nearest, m).

(** The whole [for] loop over one scan. *)
Definition scan_pass (st : state) (scan : list (Q * Q)) : distance * list (list Q) :=
  fold_left (point_step st) scan (inf, map_data st).

(** One scan taken from the queue: the [for] loop, the decision, and the
    variables after it.  The command is what is put on [motor_queue]; the
    state returned is also the snapshot put on [data_queue]. *)
Definition process_scan (st : state) (scan : list (Q * Q)) : state * command :=
  let '(nearest, m) := scan_pass st scan in
  if below nearest (MIN_DISTANCE cfg) then
    ({| map_data := m;
        position := position st;
        orientation := py_mod (orientation st + 5) 360 |},
     Move (- TURN_SPEED cfg) (TURN_SPEED cfg))
  else
    let p0 := Qtrunc (inject_Z (fst (position st)) + (1 # 20) * cos (radians (orientation st)))%Q in
    let p1 := Qtrunc (inject_Z (snd (position st)) + (1 # 20) * sin (radians (orientation st)))%Q in
    ({| map_data := m; position := (p0, p1); orientation := orientation st |},
     Move (FORWARD_SPEED cfg) (FORWARD_SPEED cfg)).

(** What one iteration of the [while] loop observes. *)
Inductive tick : Type :=
| StopSet                        (* stop_event.is_set() *)
| Empty                          (* scan_queue.empty() *)
| Scan (scan : list (Q * Q))     (* scan_queue.get() *)
| Terminated.                    (* the supervisor called terminate(), taken here between two iterations *)

Inductive status : Type :=
| Running       (* the script ended inside the loop *)
| Exited        (* run returned *)
| Killed.       (* the process was terminated *)

Record output : Type := {
  final : state;
  motor_queue : list command;     (* the puts on motor_queue, in order *)
  data_queue : list state         (* the puts on data_queue, in order *)
}.

(** The [while] loop of [run] and the two statements after it. *)
Fixpoint loop (st : state) (ticks : list tick) : status * output :=
  match ticks with
  | [] => (Running, {| final := st; motor_queue := []; data_queue := [] |})
  | StopSet :: _ =>
      (Exited, {| final := st; motor_queue := [EmergencyStop]; data_queue := [] |})
  | Terminated :: _ =>
      (Killed, {| final := st; motor_queue := []; data_queue := [] |})
  | Empty :: rest => loop st rest
  | Scan scan :: rest =>
      let '(st', c) := process_scan st scan in
      let '(s, out) := loop st' rest in
      (s, {| final := final out;
             motor_queue := c :: motor_queue out;
             data_queue := st' :: data_queue out |})
  end.

(** [run] *)
Definition run (ticks : list tick) : status * output := loop start ticks.

End WithConfig.

(** A cell holds 1. *)
Definition occupied (m : list (list Q)) (y x : nat) : Prop := cell m y x = Some 1%Q.

Definition is_move (c : command) : bool :=
  match c with Move _ _ => true | EmergencyStop => false end.

End ExplorerProcess.

(** ** src/hardware/processes.py: the camera worker *)

Module CameraProcess.

(** The calls on the [Picamera2] object. *)
Inductive device_call : Type :=
| Picamera2 | create_still_configuration | configure | start
| capture_array | stop.

Inductive event : Type :=
| Returned (c : device_call)
| Raised (c : device_call)
| Put (frame_data : string)    (* self.queue.put(('frame', frame_data)) *)
| Caught.                      (* the except clause of run *)

(** The calls before the loop, in order. *)
Definition setup_calls : list device_call :=
  [Picamera2; create_still_configuration; configure; start].

(** The calls of a list of which the one at index [failing], when there
    is one, raises; and whether one did. *)
Fixpoint attempt (calls : list device_call) (failing : option nat) : list event * bool :=
  match calls, failing with
  | [], _ => ([], true)
  | c :: _, Some O => ([Raised c], false)
  | c :: rest, Some (S n) =>
      let '(evs, ok) := attempt rest (Some n) in (Returned c :: evs, ok)
  | c :: rest, None =>
      let '(evs, ok) := attempt rest None in (Returned c :: evs, ok)
  end.

(** What one iteration of the [while] loop observes. *)
Inductive tick : Type :=
| StopSet                            (* stop_event.is_set() *)
| Frame (encoded : option string)    (* capture_array returns; imencode succeeds with this base64 text, or fails *)
| CaptureRaises                      (* capture_array raises *)
| EncodeRaises.                      (* capture_array returns, the encoding raises *)

Record script : Type := {
  setup : option nat;      (* the call before the loop that raises *)
  ticks : list tick;
  stop_returns : bool      (* camera.stop() in the finally clause returns *)
}.

Inductive loop_end : Type := LoopStopped | LoopRaised | LoopRunning.

(** The [while] loop of [run]. *)
Fixpoint loop (ticks : list tick) : list event * loop_end :=
  match ticks with
  | [] => ([], LoopRunning)
  | StopSet :: _ => ([], LoopStopped)
  | CaptureRaises :: _ => ([Raised capture_array], LoopRaised)
  | EncodeRaises :: _ => ([Returned capture_array], LoopRaised)
  | Frame encoded :: rest =>
      let '(evs, e) := loop rest in
      (Returned capture_array ::
       match encoded with Some frame_data => [Put frame_data] | None => [] end ++ evs, e)
  end.

Inductive exit : Type :=
| Returns       (* run returned *)
| Escapes       (* the exception of camera.stop() left run *)
| StillRunning.

(** The [finally] clause: [camera.stop()] when the name [camera] is
    bound, that is when [Picamera2()] returned; the call is in no [try]. *)
Definition finally_clause (s : script) (bound : bool) : list event * exit :=
  if bound then
    if stop_returns s then ([Returned stop], Returns) else ([Raised stop], Escapes)
  else ([], Returns).

(** [camera] is bound unless the first call, the constructor, raises. *)
Definition camera_bound (s : script) : bool :=
  match setup s with Some O => false | _ => true end.

(** [run] *)
Definition run (s : script) : list event * exit :=
  let '(evs, ok) := attempt setup_calls (setup s) in
  if ok then
    match loop (ticks s) with
    | (evs', LoopRunning) => (evs ++ evs', StillRunning)
    | (evs', LoopStopped) =>
        let '(fin, e) := finally_clause s true in (evs ++ evs' ++ fin, e)
    | (evs', LoopRaised) =>
        let '(fin, e) := finally_clause s true in (evs ++ evs' ++ Caught :: fin, e)
    end
  else
    let '(fin, e) := finally_clause s (camera_bound s) in (evs ++ Caught :: fin, e).

Definition frames (trace : list event) : list string :=
  omap (fun e => match e with Put frame_data => Some frame_data | _ => None end) trace.

End CameraProcess.

(** ** src/main.py: the snapshot cache and the shutdown *)

Module Supervisor.
Import VehicleController.

(** [latest_position]: the dictionary with keys [x], [y] and
    [orientation]. *)
Record pose : Type := { x : Z; y : Z; orientation : Q }.

(** The attributes [latest_frame], [latest_map] and [latest_position]. *)
Record cache : Type := {
  latest_frame : option string;
  latest_map : option (list (list Q));
  latest_position : option pose
}.

(** The cache that [__init__] makes. *)
Definition empty_cache : cache :=
  {| latest_frame := None; latest_map := None; latest_position := None |}.

(** The items of [data_queue]: [('frame', text)] from the camera,
    [('map', snapshot)] from the explorer, and any other tag. *)
Inductive item : Type :=
| frame (data : string)
| map_ (snapshot : ExplorerProcess.state)
| other.

(** The dispatch of [_process_data] on one item. *)
Definition store (c : cache) (i : item) : cache :=
  match i with
  | frame data =>
      {| latest_frame := Some data;
         latest_map := latest_map c;
         latest_position := latest_position c |}
  | map_ snapshot =>
      {| latest_frame := latest_frame c;
         latest_map := Some (ExplorerProcess.map_data snapshot);
         latest_position :=
           Some {| x := fst (ExplorerProcess.position snapshot);
                   y := snd (ExplorerProcess.position snapshot);
                   orientation := ExplorerProcess.orientation snapshot |} |}
  | other => c
  end.

(** One iteration of the loop of [_process_data]: at most one item is
    taken from the queue. *)
Definition poll (state : cache * list item) : cache * list item :=
  match snd state with
  | [] => state
  | i :: rest => (store (fst state) i, rest)
  end.

(** [n] iterations. *)
Fixpoint polls (n : nat) (state : cache * list item) : cache * list item :=
  match n with
  | O => state
  | S n => polls n (poll state)
  end.

(** The answer of a read operation: the payload, or 404. *)
Inductive answer (A : Type) : Type :=
| found (payload : A)
| not_found (reason : string).
Arguments found {A} payload.
Arguments not_found {A} reason.

(** [get_camera]: [if self.latest_frame] fails for [None] and for the
    empty string. *)
Definition get_camera (c : cache) : answer string :=
  match latest_frame c with
  | Some data => if String.eqb data "" then not_found "No camera frame available" else found data
  | None => not_found "No camera frame available"
  end.

(** [get_map]: [if self.latest_map is not None]. *)
Definition get_map (c : cache) : answer (list (list Q)) :=
  match latest_map c with
  | Some m => found m
  | None => not_found "No map data available"
  end.

(** [get_position]: a dictionary with three keys is true. *)
Definition get_position (c : cache) : answer pose :=
  match latest_position c with
  | Some p => found p
  | None => not_found "No position data available"
  end.

(** What [stop] does with one process: [join(timeout=5)], then
    [terminate()] when the process is still alive. *)
Inductive stop_action : Type :=
| Joined (p : process)
| Terminated (p : process).

(** [stop]: every process of the dictionary is joined and, when it did
    not leave its loop in time, terminated.  [exits p] tells whether [p]
    leaves in time once the stop event is set. *)
Definition stop (exits : process -> bool) (self : t) : t * list stop_action :=
  let ps := (map_to_list (processes self)).*2 in
  ({| mode := mode self;
      processes := processes self;
      motor_queue := motor_queue self;
      running := foldr terminate (running self) ps;
      next_id := next_id self |},
   map (fun p => if exits p then Joined p else Terminated p) ps).

End Supervisor.

(** * Verification *)

(** ** The supervisor *)

Module VehicleControllerSpec.
Import VehicleController.

(** The mode invariant: in manual mode there is no explorer entry and no
    explorer process; in explore mode there is one entry and it is the
    one explorer process. *)
Inductive mode_inv (self : t) : Prop :=
| inv_manual :
    mode self = "manual" ->
    processes self !! "explorer" = None ->
    navigators self = [] ->
    mode_inv self
| inv_explore p :
    mode self = "explore" ->
    processes self !! "explorer" = Some p ->
    navigators self = [p] ->
    mode_inv self.

Lemma navigators_init : navigators init = [].
Proof. reflexivity. Qed.

Lemma mode_inv_init : mode_inv init.
Proof. apply inv_manual; reflexivity. Qed.

Lemma navigators_put_motor c self : navigators (put_motor c self) = navigators self.
Proof. reflexivity. Qed.

Lemma navigators_set_mode m self : navigators (set_mode m self) = navigators self.
Proof. reflexivity. Qed.

Lemma navigators_start_explorer self :
  navigators (start_explorer self) =
  navigators self ++ [{| p_class := ExplorerProcess; p_id := next_id self |}].
Proof. unfold navigators, start_explorer; simpl. by rewrite filter_app. Qed.

Lemma navigators_terminate p l :
  filter (fun q => is_explorer q = true) (terminate p l) =
  terminate p (filter (fun q => is_explorer q = true) l).
Proof.
  unfold terminate. induction l as [|q l IH]; [done|].
  rewrite !filter_cons.
  destruct (decide (q ≠ p)) as [Hq|Hq], (decide (is_explorer q = true)) as [He|He];
    rewrite ?filter_cons; repeat case_decide; try done; by rewrite IH.
Qed.

Lemma terminate_single p : terminate p [p] = [].
Proof. unfold terminate. rewrite filter_cons. by case_decide. Qed.

Lemma mode_inv_stop_explorer self :
  mode_inv self -> mode_inv (set_mode "manual" (stop_explorer self)).
Proof.
  intros [Hm Hp Hn | p Hm Hp Hn]; unfold stop_explorer; rewrite Hp.
  - by apply inv_manual.
  - apply inv_manual; simpl.
    + done.
    + apply lookup_delete_eq.
    + unfold navigators; simpl.
      rewrite navigators_terminate. fold (navigators self).
      rewrite Hn. apply terminate_single.
Qed.

Lemma mode_inv_control self req : mode_inv self -> mode_inv (fst (handle_control self req)).
Proof.
  intros H. unfold handle_control.
  destruct (negb _); [done|].
  destruct req as [|[l| |e] [r| |e']]; simpl; try done.
  destruct (negb _); simpl; [done|].
  destruct H as [Hm Hp Hn | p Hm Hp Hn]; [by apply inv_manual | by eapply inv_explore].
Qed.

Lemma mode_inv_mode self req : mode_inv self -> mode_inv (fst (handle_mode self req)).
Proof.
  intros H. unfold handle_mode.
  destruct req as [new_mode|]; [|done].
  destruct (negb _) eqn:Hvalid; [done|].
  destruct (String.eqb new_mode (mode self)) eqn:Hsame; [done|].
  apply String.eqb_neq in Hsame.
  destruct (String.eqb new_mode "explore") eqn:Hexp; simpl.
  - apply String.eqb_eq in Hexp as ->.
    destruct H as [Hm Hp Hn | p Hm Hp Hn]; [|congruence].
    eapply inv_explore; simpl.
    + done.
    + apply lookup_insert_eq.
    + rewrite navigators_set_mode, navigators_start_explorer, Hn. done.
  - apply negb_false_iff, orb_true_iff in Hvalid as [Hman|Hexp'];
      [|congruence].
    apply String.eqb_eq in Hman as ->.
    by apply mode_inv_stop_explorer.
Qed.

Lemma mode_inv_emergency self : mode_inv self -> mode_inv (fst (handle_emergency self)).
Proof.
  intros H. unfold handle_emergency; simpl.
  apply (mode_inv_stop_explorer (put_motor EmergencyStop self)).
  destruct H as [Hm Hp Hn | p Hm Hp Hn]; [by apply inv_manual | by eapply inv_explore].
Qed.

Lemma mode_inv_apply self o : mode_inv self -> mode_inv (apply self o).
Proof.
  destruct o as [req|req|].
  - exact (mode_inv_control self req).
  - exact (mode_inv_mode self req).
  - exact (mode_inv_emergency self).
Qed.

Lemma mode_inv_fold ops : forall self, mode_inv self -> mode_inv (fold_left apply ops self).
Proof.
  induction ops as [|o ops IH]; simpl; [done|].
  intros self H. apply IH, mode_inv_apply, H.
Qed.

Lemma mode_inv_serve ops : mode_inv (serve ops).
Proof. apply mode_inv_fold, mode_inv_init. Qed.

(** C5.  After any sequence of control, set-mode and emergency-stop
    requests served from the initial state, the [processes] dictionary
    has an explorer entry exactly when the mode is explore, an explorer
    process is running exactly when the mode is explore, and at most one
    explorer process is running. *)
Theorem navigator_iff_explore (ops : list op) :
  (is_Some (processes (serve ops) !! "explorer") <-> mode (serve ops) = "explore") /\
  (navigators (serve ops) <> [] <-> mode (serve ops) = "explore") /\
  (length (navigators (serve ops)) <= 1)%nat.
Proof.
  destruct (mode_inv_serve ops) as [Hm Hp Hn | p Hm Hp Hn]; rewrite Hm, Hp, Hn.
  - repeat split; simpl; try done; try lia.
  - repeat split; simpl; try done; try lia.
Qed.

(** The set-mode operation never touches the command channel. *)
Lemma handle_mode_motor_queue self req :
  motor_queue (fst (handle_mode self req)) = motor_queue self.
Proof.
  unfold handle_mode. destruct req as [new_mode|]; [|done].
  repeat (match goal with |- context [if ?b then _ else _] => destruct b end);
    try done; simpl.
  unfold stop_explorer. by destruct (processes self !! "explorer").
Qed.

(** The emergency-stop operation forwards [EmergencyStop] and leaves
    the controller in manual mode without explorer. *)
Lemma handle_emergency_forwards_stop self :
  mode_inv self ->
  motor_queue (fst (handle_emergency self)) = motor_queue self ++ [EmergencyStop] /\
  mode (fst (handle_emergency self)) = "manual" /\
  navigators (fst (handle_emergency self)) = [].
Proof.
  intros H. apply mode_inv_emergency in H as H'.
  split; [|split].
  - unfold handle_emergency; simpl. unfold stop_explorer; simpl.
    by destruct (processes self !! "explorer").
  - done.
  - destruct H' as [_ _ Hn | p Hm _ _]; [done|]. discriminate Hm.
Qed.

(** C4.  From explore mode, a set-mode request for manual switches the
    mode and terminates the explorer, and the command channel is left as
    it was: no [EmergencyStop] is forwarded on this path. *)
Theorem set_mode_manual_forwards_no_stop (self : t) :
  mode_inv self ->
  mode self = "explore" ->
  mode (fst (handle_mode self (Some "manual"))) = "manual" /\
  navigators (fst (handle_mode self (Some "manual"))) = [] /\
  processes (fst (handle_mode self (Some "manual"))) !! "explorer" = None /\
  motor_queue (fst (handle_mode self (Some "manual"))) = motor_queue self.
Proof.
  intros H Hm.
  pose proof (mode_inv_mode self (Some "manual") H) as H'.
  assert (Hmode : mode (fst (handle_mode self (Some "manual"))) = "manual").
  { unfold handle_mode. rewrite Hm. reflexivity. }
  split; [done|].
  destruct H' as [_ Hp Hn | p Hm' _ _]; [|congruence].
  repeat split; try done. apply handle_mode_motor_queue.
Qed.

(** The failing run: explore is entered from the initial state and left
    by a set-mode request. *)
Lemma set_mode_manual_forwards_no_stop_witness :
  let self := serve [SetMode (Some "explore")] in
  mode (fst (handle_mode self (Some "manual"))) = "manual" /\
  navigators (fst (handle_mode self (Some "manual"))) = [] /\
  processes (fst (handle_mode self (Some "manual"))) !! "explorer" = None /\
  motor_queue (fst (handle_mode self (Some "manual"))) = [].
Proof.
  apply (set_mode_manual_forwards_no_stop (serve [SetMode (Some "explore")])).
  - apply mode_inv_serve.
  - reflexivity.
Defined.

(** A speed of the request lies outside [-1.0, 1.0]. *)
Definition outside (c : conv) : Prop :=
  match c with
  | Float x => ~ (-1 <= x /\ x <= 1)%Q
  | NonFinite => True
  | Raises _ => False
  end.

Lemma _validate_speed_spec x : _validate_speed x = true <-> (-1 <= x /\ x <= 1)%Q.
Proof.
  unfold _validate_speed, Qbetween.
  rewrite andb_true_iff, !Qle_bool_iff. reflexivity.
Qed.

(** C7.  [handle_control] rejects a request with a speed outside
    [-1.0, 1.0] whatever the mode, rejects every request made outside
    manual mode with the reason "Not in manual mode", and changes the
    controller only by putting [Move left right] on the command channel,
    in manual mode and with both speeds inside [-1.0, 1.0]. *)
Theorem control_validation (self : t) (req : control_body) :
  (forall l r, req = Body l r -> outside l \/ outside r ->
     fst (handle_control self req) = self /\
     status (snd (handle_control self req)) <> 200) /\
  (mode self <> "manual" ->
     handle_control self req = (self, {| status := 400; text := "Not in manual mode" |})) /\
  (fst (handle_control self req) = self \/
   mode self = "manual" /\
   exists l r, req = Body (Float l) (Float r) /\
     (-1 <= l /\ l <= 1)%Q /\ (-1 <= r /\ r <= 1)%Q /\
     handle_control self req = (put_motor (Move l r) self, OK)).
Proof.
  unfold handle_control.
  destruct (String.eqb (mode self) "manual") eqn:Hm; simpl.
  - apply String.eqb_eq in Hm.
    split; [|split].
    + intros l r -> Hout.
      destruct l as [l| |[]], r as [r| |[]]; simpl in *; try (split; done);
        try (destruct Hout; done).
      destruct (_validate_speed l && _validate_speed r) eqn:Hv; simpl; [|done].
      apply andb_true_iff in Hv as [Hl Hr].
      apply _validate_speed_spec in Hl, Hr. tauto.
    + done.
    + destruct req as [|[l| |e] [r| |e']]; simpl; try (left; done).
      destruct (_validate_speed l && _validate_speed r) eqn:Hv; simpl; [|left; done].
      apply andb_true_iff in Hv as [Hl Hr].
      apply _validate_speed_spec in Hl, Hr.
      right. split; [done|]. by exists l, r.
  - apply String.eqb_neq in Hm.
    split; [|split]; try done. by left.
Qed.

(** In manual mode a request with both speeds in range is accepted. *)
Lemma control_accepts self l r :
  mode self = "manual" -> (-1 <= l /\ l <= 1)%Q -> (-1 <= r /\ r <= 1)%Q ->
  handle_control self (Body (Float l) (Float r)) = (put_motor (Move l r) self, OK).
Proof.
  intros Hm Hl Hr. unfold handle_control. rewrite Hm; simpl.
  apply _validate_speed_spec in Hl, Hr. by rewrite Hl, Hr.
Qed.

(** The specification's examples: a speed of 1.5 is rejected in either
    mode, and in explore mode the reason is the mode. *)
Example control_rejects_1_5 :
  handle_control init (Body (Float (3 # 2)) (Float (1 # 2))) =
    (init, {| status := 400; text := "Invalid speed values" |}) /\
  handle_control (serve [SetMode (Some "explore")]) (Body (Float (3 # 2)) (Float (1 # 2))) =
    (serve [SetMode (Some "explore")], {| status := 400; text := "Not in manual mode" |}) /\
  handle_control (serve [SetMode (Some "explore")]) (Body (Float (1 # 2)) (Float (1 # 2))) =
    (serve [SetMode (Some "explore")], {| status := 400; text := "Not in manual mode" |}).
Proof. repeat split. Qed.

(** The specification's scenario: a move in manual mode, explore, then
    the emergency stop. *)
Example scenario :
  let self := serve [Control (Body (Float (3 # 10)) (Float (3 # 10)));
                     SetMode (Some "explore"); Emergency] in
  mode self = "manual" /\ navigators self = [] /\
  processes self !! "explorer" = None /\
  motor_queue self = [Move (3 # 10) (3 # 10); EmergencyStop].
Proof. repeat split. Qed.

End VehicleControllerSpec.

(** ** The range scanner *)

Module LiDARProcessSpec.
Import LiDARProcess.

(** The quality filter and the unit conversion, as the specification
    words them. *)
Definition passes (r : reading) : bool :=
  let '(quality, _, _) := r in min_quality <=? quality.

Definition in_metres (r : reading) : point :=
  let '(_, angle, distance) := r in (angle, (distance / 1000)%Q).

Lemma fold_process_reading scan : forall acc,
  fold_left _process_reading scan acc = acc ++ map in_metres (List.filter passes scan).
Proof.
  induction scan as [|[[q a] d] scan IH]; intros acc; simpl.
  - by rewrite app_nil_r.
  - rewrite IH. destruct (min_quality <=? q); simpl; [|done].
    by rewrite <- app_assoc.
Qed.

Lemma _process_scan_spec scan :
  _process_scan scan =
  match List.filter passes scan with
  | [] => None
  | kept => Some (map in_metres kept)
  end.
Proof.
  unfold _process_scan. rewrite fold_process_reading; simpl.
  by destruct (List.filter passes scan).
Qed.

Lemma _process_scan_nonempty scan batch : _process_scan scan = Some batch -> batch <> [].
Proof.
  unfold _process_scan. destruct (fold_left _ _ _); [done|].
  by intros [= <-].
Qed.

Lemma _process_scan_batch scan batch :
  _process_scan scan = Some batch -> batch = map in_metres (List.filter passes scan).
Proof.
  rewrite _process_scan_spec.
  destruct (List.filter passes scan); [done|]. by intros [= <-].
Qed.

Lemma in_batch scan (p : point) :
  In p (map in_metres (List.filter passes scan)) <->
  exists q a d, In (q, a, d) scan /\ min_quality <= q /\ p = (a, (d / 1000)%Q).
Proof.
  rewrite in_map_iff. split.
  - intros [[[q a] d] [<- Hin]].
    apply filter_In in Hin as [Hin Hq].
    exists q, a, d. repeat split; [done|]. by apply Z.leb_le.
  - intros (q & a & d & Hin & Hq & ->).
    exists (q, a, d). split; [done|].
    apply filter_In. split; [done|]. by apply Z.leb_le.
Qed.

Lemma scan_step_spec scan :
  scan_step scan =
  match List.filter passes scan with
  | [] => [Sleep measurement_delay]
  | kept => [Put (map in_metres kept); Sleep measurement_delay]
  end.
Proof.
  unfold scan_step. rewrite _process_scan_spec.
  by destruct (List.filter passes scan).
Qed.

Lemma some_reading_passes scan :
  (exists q a d, In (q, a, d) scan /\ min_quality <= q) <-> List.filter passes scan <> [].
Proof.
  split.
  - intros (q & a & d & Hin & Hq) Hnil.
    assert (H : In (q, a, d) (List.filter passes scan)).
    { apply filter_In. split; [done|]. by apply Z.leb_le. }
    by rewrite Hnil in H.
  - destruct (List.filter passes scan) as [|[[q a] d] kept] eqn:Hk; [done|]. intros _.
    assert (Hin : In (q, a, d) (List.filter passes scan)) by (rewrite Hk; by left).
    apply filter_In in Hin as [Hin Hq]. exists q, a, d.
    split; [done|]. by apply Z.leb_le.
Qed.

(** The events of the scans of a round are part of every iteration that
    reaches the streaming loop. *)
Lemma iteration_streams st r e :
  lidar st = true \/ raises init_calls (connect r) = false ->
  In e (concat (map scan_step (scans r))) ->
  In e (snd (fst (iteration st r))).
Proof.
  intros Hheld He.
  assert (Hs : forall st0, In e (snd (fst (streaming st0 r)))).
  { intros st0. unfold streaming. destruct (ending r).
    - destruct (except_clause st0 (teardown r)) as [[st' evs'] o]; simpl.
      right. apply in_or_app. by left.
    - simpl. by right.
    - simpl. by right. }
  unfold iteration, _init_lidar. destruct (lidar st); [apply Hs|].
  destruct Hheld as [|Hr]; [done|]. rewrite Hr. cbv beta iota zeta delta [negb].
  specialize (Hs {| retry_count := 0; lidar := true |}).
  destruct (streaming _ r) as [[st' evs'] o]; simpl in *.
  apply in_or_app. by right.
Qed.

(** C6.  For a raw scan handled by the loop body of [run]: a point is in
    a batch put on the scan channel exactly when it is
    [(angle, distance / 1000)] of a reading whose quality is at least
    [min_quality]; when some reading passes, the body puts one batch, the
    converted passing readings in their order, and that batch is put in
    every iteration of [run] that reaches the streaming loop with this
    scan; when no reading passes, the body puts nothing.  The batch put
    is the one that [_process_scan] returns, and it is not empty. *)
Theorem quality_filter (scan : list reading) :
  (forall p : point,
     (exists batch, In (Put batch) (scan_step scan) /\ In p batch) <->
     (exists q a d, In (q, a, d) scan /\ min_quality <= q /\ p = (a, (d / 1000)%Q))) /\
  ((exists q a d, In (q, a, d) scan /\ min_quality <= q) ->
     scan_step scan =
       [Put (map in_metres (List.filter passes scan)); Sleep measurement_delay] /\
     forall st r, In scan (scans r) ->
       lidar st = true \/ raises init_calls (connect r) = false ->
       In (Put (map in_metres (List.filter passes scan))) (snd (fst (iteration st r)))) /\
  ((forall q a d, In (q, a, d) scan -> q < min_quality) ->
     scan_step scan = [Sleep measurement_delay] /\
     forall batch, ~ In (Put batch) (scan_step scan)) /\
  (forall p : point,
     (exists batch, _process_scan scan = Some batch /\ In p batch) <->
     (exists q a d, In (q, a, d) scan /\ min_quality <= q /\ p = (a, (d / 1000)%Q))) /\
  (forall batch, In (Put batch) (scan_step scan) ->
     _process_scan scan = Some batch /\ batch <> []).
Proof.
  assert (Hput : forall batch, In (Put batch) (scan_step scan) ->
                   _process_scan scan = Some batch /\ batch <> []).
  { intros batch. unfold scan_step.
    destruct (_process_scan scan) as [b|] eqn:Hb; simpl.
    - intros [[= ->]|[|[]]]; [|done].
      split; [done|]. by eapply _process_scan_nonempty.
    - intros [|[]]; done. }
  assert (Hret : forall p : point,
     (exists batch, _process_scan scan = Some batch /\ In p batch) <->
     (exists q a d, In (q, a, d) scan /\ min_quality <= q /\ p = (a, (d / 1000)%Q))).
  { intros p. rewrite <- in_batch. split.
    - intros (batch & Hb & Hin). by rewrite <- (_process_scan_batch _ _ Hb).
    - intros Hin. rewrite _process_scan_spec.
      destruct (List.filter passes scan) as [|r kept] eqn:Hk; [done|]. by eexists. }
  assert (Hsome : (exists q a d, In (q, a, d) scan /\ min_quality <= q) ->
     scan_step scan =
       [Put (map in_metres (List.filter passes scan)); Sleep measurement_delay]).
  { intros Hpass. apply some_reading_passes in Hpass. rewrite scan_step_spec.
    by destruct (List.filter passes scan). }
  split; [|split; [|split; [|split]]]; try done.
  - intros p. rewrite <- Hret. split.
    + intros (batch & Hin & Hp). exists batch. split; [|done]. by apply Hput.
    + intros (batch & Hb & Hp). exists batch. split; [|done].
      unfold scan_step. rewrite Hb. by left.
  - intros Hpass. split; [by apply Hsome|].
    intros st r Hin Hheld. apply iteration_streams; [done|].
    apply in_concat. exists (scan_step scan). split; [by apply in_map|].
    rewrite (Hsome Hpass). by left.
  - intros Hlow.
    assert (Hnil : List.filter passes scan = []).
    { destruct (List.filter passes scan) as [|[[q a] d] kept] eqn:Hk; [done|].
      assert (Hin : In (q, a, d) (List.filter passes scan)) by (rewrite Hk; by left).
      apply filter_In in Hin as [Hin Hq]. simpl in Hq.
      apply Z.leb_le in Hq. specialize (Hlow q a d Hin). lia. }
    rewrite scan_step_spec, Hnil. split; [done|].
    intros batch [|[]]; done.
Qed.

(** The specification's example: two readings of quality 15 at 1000 mm. *)
Example quality_filter_example :
  scan_step [(15, 0%Q, 1000%Q); (14, 45%Q, 500%Q); (15, 90%Q, 1000%Q)] =
  [Put [(0%Q, (1000 / 1000)%Q); (90%Q, (1000 / 1000)%Q)]; Sleep measurement_delay].
Proof. reflexivity. Qed.

(** The end of the trace of an [except] clause. *)
Definition backoff (n : Z) : list event :=
  if n <? max_retries then [Sleep retry_delay] else [MaxRetries].

Definition verdict (n : Z) : outcome :=
  if n <? max_retries then Continue else Break.

Lemma except_clause_spec st failing :
  except_clause st failing =
  ({| retry_count := retry_count st + 1; lidar := false |},
   Caught :: _cleanup_lidar (lidar st) failing ++ backoff (retry_count st + 1),
   verdict (retry_count st + 1)).
Proof.
  unfold except_clause, backoff, verdict.
  by destruct (retry_count st + 1 <? max_retries).
Qed.

(** An exception inside [_init_lidar]: the counter goes up by one and no
    call of the teardown is made. *)
Lemma connect_exception st r :
  lidar st = false -> raises init_calls (connect r) = true ->
  iteration st r =
  ({| retry_count := retry_count st + 1; lidar := false |},
   attempt init_calls (connect r) ++ Caught :: backoff (retry_count st + 1),
   verdict (retry_count st + 1)).
Proof.
  intros Hl Hr. unfold iteration, _init_lidar. rewrite Hl, Hr; simpl.
  rewrite except_clause_spec, Hl. reflexivity.
Qed.

(** An exception of [iter_scans]: the counter goes up by one, from 0 when
    the device was connected in this iteration, and the teardown of the
    held device follows. *)
Lemma stream_exception st r :
  ending r = StreamRaises ->
  (lidar st = true \/ raises init_calls (connect r) = false) ->
  let n := if lidar st then retry_count st else 0 in
  let before := if lidar st then [] else attempt init_calls (connect r) in
  iteration st r =
  ({| retry_count := n + 1; lidar := false |},
   before ++ (Returned iter_scans :: concat (map scan_step (scans r))) ++
     Raised iter_scans :: Caught ::
     (attempt cleanup_calls (teardown r) ++
      (if raises cleanup_calls (teardown r) then [CleanupError] else [])) ++
     backoff (n + 1),
   verdict (n + 1)).
Proof.
  intros He Hheld. unfold iteration, _init_lidar, streaming.
  destruct (lidar st) eqn:Hl.
  - rewrite He, except_clause_spec, Hl. reflexivity.
  - destruct Hheld as [|Hr]; [done|]. rewrite Hr.
    cbv beta iota zeta delta [negb]. rewrite He, except_clause_spec.
    cbn [retry_count lidar _cleanup_lidar]. by rewrite <- app_assoc.
Qed.

(** Once [run] has returned, nothing that happens later matters. *)
Lemma stopped_is_final script : forall st more,
  fst (fst (loop st script)) = Stopped -> loop st (script ++ more) = loop st script.
Proof.
  induction script as [|r script IH]; intros st more; simpl; [done|].
  destruct (negb (head_stop r) && (retry_count st <? max_retries)); [|done].
  destruct (iteration st r) as [[st' evs] [|]]; [|done].
  specialize (IH st' more).
  destruct (loop st' script) as [[s st''] evs'] eqn:Hloop; simpl in *.
  intros ->. by rewrite IH.
Qed.

(** With the counter at the maximum, the loop is not entered. *)
Lemma exhausted_stops st r script :
  max_retries <= retry_count st ->
  loop st (r :: script) = (Stopped, st, _cleanup_lidar (lidar st) (teardown r)).
Proof.
  intros H. simpl.
  assert ((retry_count st <? max_retries) = false) as Hge by (by apply Z.ltb_ge).
  rewrite Hge.
  by rewrite andb_false_r.
Qed.

(** An exception that brings the counter to the maximum ends [run]. *)
Lemma break_stops st r script st' evs :
  head_stop r = false -> retry_count st < max_retries ->
  iteration st r = (st', evs, Break) ->
  loop st (r :: script) = (Stopped, st', evs ++ _cleanup_lidar (lidar st') (teardown r)).
Proof.
  intros Hh Hlt Hit. simpl. rewrite Hh, Hit.
  assert ((retry_count st <? max_retries) = true) as Hlt' by (by apply Z.ltb_lt).
  rewrite Hlt'.
  reflexivity.
Qed.

(** The counter stays within its bounds over one iteration, and the
    loop goes on only with the counter below the maximum. *)
Lemma iteration_counter st r :
  0 <= retry_count st < max_retries ->
  0 <= retry_count (fst (fst (iteration st r))) <= max_retries /\
  (snd (iteration st r) = Continue ->
   retry_count (fst (fst (iteration st r))) < max_retries).
Proof.
  intros Hst. unfold iteration, _init_lidar, streaming.
  assert (Hexc : forall st0 f, 0 <= retry_count st0 < max_retries ->
            0 <= retry_count (fst (fst (except_clause st0 f))) <= max_retries /\
            (snd (except_clause st0 f) = Continue ->
             retry_count (fst (fst (except_clause st0 f))) < max_retries)).
  { intros st0 f H0. rewrite except_clause_spec; simpl. unfold verdict.
    destruct (retry_count st0 + 1 <? max_retries) eqn:Hlt;
      [apply Z.ltb_lt in Hlt | apply Z.ltb_ge in Hlt]; split; try done; lia. }
  destruct (lidar st).
  - destruct (ending r).
    + specialize (Hexc st (teardown r) Hst).
      by destruct (except_clause st (teardown r)) as [[st' evs] o].
    + simpl. lia.
    + simpl. split; [lia|done].
  - destruct (raises init_calls (connect r)); cbv beta iota zeta delta [negb].
    + specialize (Hexc st (teardown r) Hst).
      by destruct (except_clause st (teardown r)) as [[st' evs] o].
    + destruct (ending r).
      * assert (H0 : 0 <= retry_count {| retry_count := 0; lidar := true |} < max_retries)
          by (simpl; unfold max_retries; lia).
        specialize (Hexc _ (teardown r) H0).
        by destruct (except_clause _ (teardown r)) as [[st' evs] o].
      * simpl. unfold max_retries. lia.
      * simpl. unfold max_retries. split; [lia|done].
Qed.

(** Over a whole run the counter never passes the maximum, and a run
    whose counter is at the maximum has returned. *)
Lemma loop_counter script : forall st,
  0 <= retry_count st < max_retries ->
  0 <= retry_count (snd (fst (loop st script))) <= max_retries /\
  (retry_count (snd (fst (loop st script))) = max_retries ->
   fst (fst (loop st script)) = Stopped).
Proof.
  induction script as [|r script IH]; intros st Hst; simpl.
  - split; lia.
  - destruct (negb (head_stop r) && (retry_count st <? max_retries)); [|simpl; split; [lia|done]].
    destruct (iteration_counter st r Hst) as [Hb Hc].
    destruct (iteration st r) as [[st' evs] [|]]; simpl in *.
    + specialize (IH st'). destruct (loop st' script) as [[s st''] evs']; simpl in *.
      apply IH. split; [lia|by apply Hc].
    + by split.
Qed.

(** The retry policy, case by case.  An exception while connecting raises the
    counter by one and is followed by no teardown call; an exception
    while streaming raises the counter by one (from 0 when the device
    was connected in the same iteration) and is followed by the calls
    [stop_motor], [stop], [disconnect] up to the first that raises.
    After either, the worker sleeps [retry_delay] and goes on exactly
    when the counter is below [max_retries]; otherwise [run] returns, and
    once it has returned or the counter is at the maximum no later event
    changes its trace.  Over any run the counter stays between 0 and
    [max_retries], and a run whose counter is at [max_retries] has
    returned. *)
Theorem retry_policy :
  (forall st r,
     lidar st = false -> raises init_calls (connect r) = true ->
     iteration st r =
     ({| retry_count := retry_count st + 1; lidar := false |},
      attempt init_calls (connect r) ++ Caught :: backoff (retry_count st + 1),
      verdict (retry_count st + 1))) /\
  (forall st r,
     ending r = StreamRaises ->
     lidar st = true \/ raises init_calls (connect r) = false ->
     let n := if lidar st then retry_count st else 0 in
     let before := if lidar st then [] else attempt init_calls (connect r) in
     iteration st r =
     ({| retry_count := n + 1; lidar := false |},
      before ++ (Returned iter_scans :: concat (map scan_step (scans r))) ++
        Raised iter_scans :: Caught ::
        (attempt cleanup_calls (teardown r) ++
         (if raises cleanup_calls (teardown r) then [CleanupError] else [])) ++
        backoff (n + 1),
      verdict (n + 1))) /\
  (forall n, (verdict n = Continue <-> n < 5) /\
             (n < 5 -> backoff n = [Sleep retry_delay]) /\
             (5 <= n -> backoff n = [MaxRetries])) /\
  (forall st r script st' evs,
     head_stop r = false -> retry_count st < max_retries ->
     iteration st r = (st', evs, Break) ->
     loop st (r :: script) = (Stopped, st', evs ++ _cleanup_lidar (lidar st') (teardown r))) /\
  (forall st r script,
     max_retries <= retry_count st ->
     loop st (r :: script) = (Stopped, st, _cleanup_lidar (lidar st) (teardown r))) /\
  (forall st script more,
     fst (fst (loop st script)) = Stopped -> loop st (script ++ more) = loop st script) /\
  (forall script,
     0 <= retry_count (snd (fst (run script))) <= max_retries /\
     (retry_count (snd (fst (run script))) = max_retries ->
      fst (fst (run script)) = Stopped)).
Proof.
  split; [exact connect_exception|].
  split; [exact stream_exception|].
  split.
  { intros n. unfold verdict, backoff, max_retries.
    destruct (n <? 5) eqn:H; [apply Z.ltb_lt in H | apply Z.ltb_ge in H];
      repeat split; try done; try lia. }
  split; [exact break_stops|].
  split; [exact exhausted_stops|].
  split; [intros st script more; apply stopped_is_final|].
  intros script. apply loop_counter. simpl. unfold max_retries. lia.
Qed.

(** A round in which [get_health], the last call of [_init_lidar],
    raises: the motor has been started. *)
Definition health_fails : round :=
  {| head_stop := false; connect := Some 6%nat; scans := [];
     ending := StreamExhausted; teardown := None |}.

(** A round in which the connection succeeds, one scan is processed and
    [iter_scans] raises. *)
Definition stream_fails : round :=
  {| head_stop := false; connect := None; scans := [[(15, 0%Q, 1000%Q)]];
     ending := StreamRaises; teardown := None |}.

Lemma retry_policy_witness :
  iteration {| retry_count := 0; lidar := false |} health_fails =
    ({| retry_count := 1; lidar := false |},
     [Returned rplidar_new; Returned stop; Returned disconnect; Returned connect_;
      Returned start_motor; Returned get_info; Raised get_health;
      Caught; Sleep retry_delay],
     Continue) /\
  iteration {| retry_count := 4; lidar := false |} stream_fails =
    ({| retry_count := 1; lidar := false |},
     [Returned rplidar_new; Returned stop; Returned disconnect; Returned connect_;
      Returned start_motor; Returned get_info; Returned get_health;
      Returned iter_scans; Put [(0%Q, (1000 / 1000)%Q)]; Sleep measurement_delay;
      Raised iter_scans; Caught;
      Returned stop_motor; Returned stop; Returned disconnect;
      Sleep retry_delay],
     Continue).
Proof.
  split.
  - apply (proj1 retry_policy {| retry_count := 0; lidar := false |} health_fails);
      reflexivity.
  - apply (proj1 (proj2 retry_policy) {| retry_count := 4; lidar := false |} stream_fails);
      [reflexivity | right; reflexivity].
Defined.

(** Every [Caught] of a trace is followed at once by a call of
    [stop_motor], the first call of the teardown. *)
Fixpoint teardown_follows (trace : list event) : bool :=
  match trace with
  | [] => true
  | Caught :: rest =>
      match rest with
      | e :: _ => is_call stop_motor e
      | [] => false
      end && teardown_follows rest
  | _ :: rest => teardown_follows rest
  end.

(** Five connection attempts that fail at [get_health]: five exceptions
    are caught, the motor was started five times, [run] has returned, and
    [stop_motor] was never called. *)
Lemma connect_failure_skips_teardown :
  let '(s, st, trace) := run (repeat health_fails 5) in
  s = Stopped /\ retry_count st = 5 /\
  count is_caught trace = 5%nat /\
  count (is_call start_motor) trace = 5%nat /\
  count (is_call stop_motor) trace = 0%nat /\
  teardown_follows trace = false.
Proof. vm_compute. repeat split. Qed.

Lemma count_of_app p l1 l2 : count p (l1 ++ l2) = (count p l1 + count p l2)%nat.
Proof. unfold count. by rewrite List.filter_app, length_app. Qed.

(** The calls of [_init_lidar] hold no [stop_motor] and no [Caught]. *)
Lemma attempt_init_calls failing :
  count (is_call stop_motor) (attempt init_calls failing) = 0%nat /\
  count is_caught (attempt init_calls failing) = 0%nat.
Proof. destruct failing as [[|[|[|[|[|[|[|n]]]]]]]|]; by split. Qed.

Lemma teardown_follows_broken l e rest :
  is_call stop_motor e = false -> teardown_follows (l ++ Caught :: e :: rest) = false.
Proof.
  intros He. induction l as [|x l IH].
  - simpl. by rewrite He.
  - destruct x; simpl; try exact IH. rewrite IH. apply andb_false_r.
Qed.

(** C8, on the code as written.  When [_init_lidar] raises, the [except]
    clause of [run] sees [lidar] still [None]: the counter goes up by
    one and one exception is caught, but [_cleanup_lidar] makes no call,
    so [stop_motor] is never called and the exception is not followed by
    a teardown, whatever the device had already done.  When this was the
    last allowed attempt, [run] returns with nothing more done. *)
Theorem connect_exception_skips_teardown (st : state) (r : round) (script : list round) :
  lidar st = false -> raises init_calls (connect r) = true ->
  head_stop r = false -> 0 <= retry_count st < max_retries ->
  retry_count (fst (fst (iteration st r))) = retry_count st + 1 /\
  count is_caught (snd (fst (iteration st r))) = 1%nat /\
  count (is_call stop_motor) (snd (fst (iteration st r))) = 0%nat /\
  teardown_follows (snd (fst (iteration st r))) = false /\
  (retry_count st + 1 = max_retries ->
   loop st (r :: script) =
     (Stopped, {| retry_count := max_retries; lidar := false |}, snd (fst (iteration st r)))).
Proof.
  intros Hl Hr Hh Hk. rewrite (connect_exception st r Hl Hr). cbn [fst snd retry_count].
  destruct (attempt_init_calls (connect r)) as [Hsm Hc].
  assert (Hb : exists e, backoff (retry_count st + 1) = [e] /\
                 is_call stop_motor e = false /\ is_caught e = false).
  { unfold backoff. destruct (_ <? _); eexists; by repeat split. }
  destruct Hb as (e & Hb & He1 & He2). rewrite Hb.
  split; [done|]. split; [|split; [|split]].
  - change (Caught :: [e]) with ([Caught] ++ [e]).
    rewrite !count_of_app, Hc. unfold count; simpl. by rewrite He2.
  - change (Caught :: [e]) with ([Caught] ++ [e]).
    rewrite !count_of_app, Hsm. unfold count; simpl. by rewrite He1.
  - by apply teardown_follows_broken.
  - intros Hmax.
    rewrite (break_stops st r script {| retry_count := retry_count st + 1; lidar := false |}
               (attempt init_calls (connect r) ++ Caught :: backoff (retry_count st + 1))).
    + cbn [lidar _cleanup_lidar]. by rewrite app_nil_r, Hb, Hmax.
    + done.
    + lia.
    + rewrite (connect_exception st r Hl Hr). unfold verdict.
      by rewrite Hmax, Z.ltb_irrefl.
Qed.

(** The fifth failure at [get_health]: the motor has been started, the
    counter reaches 5, and [run] returns without any teardown call. *)
Lemma connect_exception_skips_teardown_witness :
  count (is_call start_motor)
    (snd (fst (iteration {| retry_count := 4; lidar := false |} health_fails))) = 1%nat /\
  retry_count (fst (fst (iteration {| retry_count := 4; lidar := false |} health_fails))) = 5 /\
  count is_caught (snd (fst (iteration {| retry_count := 4; lidar := false |} health_fails))) = 1%nat /\
  count (is_call stop_motor)
    (snd (fst (iteration {| retry_count := 4; lidar := false |} health_fails))) = 0%nat /\
  teardown_follows
    (snd (fst (iteration {| retry_count := 4; lidar := false |} health_fails))) = false /\
  (4 + 1 = max_retries ->
   loop {| retry_count := 4; lidar := false |} [health_fails] =
     (Stopped, {| retry_count := max_retries; lidar := false |},
      snd (fst (iteration {| retry_count := 4; lidar := false |} health_fails)))).
Proof.
  split; [reflexivity|].
  apply (connect_exception_skips_teardown {| retry_count := 4; lidar := false |} health_fails []);
    [reflexivity | reflexivity | reflexivity | simpl; unfold max_retries; lia].
Defined.

End LiDARProcessSpec.

(** ** The drive worker *)

Module MotorProcessSpec.
Import MotorProcess.

(** A call of a method that the class does not define. *)
Lemma call_undefined cls name ok done :
  name ∉ cls -> call cls name ok done = ([], Some AttributeError).
Proof. intros H. unfold call. by rewrite bool_decide_eq_false_2. Qed.

Lemma call_defined cls name done :
  name ∈ cls -> call cls name true done = ([done], None).
Proof. intros H. unfold call. by rewrite bool_decide_eq_true_2. Qed.

Lemma _emergency_stop_undefined : "_emergency_stop" ∉ methods.
Proof. by apply (bool_decide_unpack _). Qed.

Lemma _set_motors_undefined : "_set_motors" ∉ methods.
Proof. by apply (bool_decide_unpack _). Qed.

(** The loop of [MotorProcess] performs nothing: the first command
    received ends it with [AttributeError]. *)
Lemma loop_methods ticks :
  fst (loop methods ticks) = [] /\
  (snd (loop methods ticks) = LoopStopped \/
   snd (loop methods ticks) = LoopRaised AttributeError \/
   snd (loop methods ticks) = LoopRunning).
Proof.
  induction ticks as [|[| |c ok] ticks IH]; simpl; auto.
  destruct c as [l r|]; cbn [dispatch].
  - rewrite (call_undefined _ _ _ _ _set_motors_undefined); simpl; auto.
  - rewrite (call_undefined _ _ _ _ _emergency_stop_undefined); simpl; auto.
Qed.

Lemma finally_methods s :
  finally_clause methods s (Some requested_lines) = ([], Some AttributeError).
Proof.
  unfold finally_clause, requested_lines, pin_configs; cbn [map fst].
  by rewrite (call_undefined methods "_emergency_stop" (final_stop s) MotorsStopped
                _emergency_stop_undefined).
Qed.

Lemma safe_exit_has_stop trace : safe_exit trace -> In MotorsStopped trace.
Proof.
  intros (before & releases & -> & _). apply in_or_app. right. by left.
Qed.

(** C1, on the code as written.  With the lines acquired, every exit of
    the loop (stop event seen, or exception while dispatching) reaches the
    [finally] clause, whose call of [self._emergency_stop] raises
    [AttributeError]: the exception leaves [run], no emergency stop was
    performed and no line was released. *)
Theorem drive_exit_never_releases (s : script) :
  gpio s = true -> snd (run s) <> StillRunning ->
  snd (run s) = Escapes AttributeError /\
  Forall (fun e => e <> MotorsStopped /\ is_released e = false) (fst (run s)) /\
  ~ safe_exit (fst (run s)).
Proof.
  intros Hg Hexit. unfold run, run_with in *.
  rewrite Hg, finally_methods in *.
  destruct (loop_methods (ticks s)) as [Hevs Hend].
  destruct (loop methods (ticks s)) as [evs e]; simpl in *; subst evs.
  destruct Hend as [-> | [-> | ->]]; simpl in *; [| |done].
  - repeat split; [constructor|].
    intros H. by apply safe_exit_has_stop in H.
  - repeat split.
    + repeat constructor; done.
    + intros H. apply safe_exit_has_stop in H as [|[]]; done.
Qed.

(** The stop event is set before any command arrives; the hardware would
    let every call return. *)
Definition cancelled : script :=
  {| gpio := true; ticks := [Empty; StopSet]; final_stop := true; release := fun _ => true |}.

(** A [Move] is received: its dispatch raises inside the loop. *)
Definition one_move : script :=
  {| gpio := true; ticks := [Receive (Move (1 # 2) (1 # 2)) true; StopSet];
     final_stop := true; release := fun _ => true |}.

Lemma drive_exit_never_releases_witness :
  run cancelled = ([], Escapes AttributeError) /\
  snd (run one_move) = Escapes AttributeError /\
  Forall (fun e => e <> MotorsStopped /\ is_released e = false) (fst (run one_move)) /\
  ~ safe_exit (fst (run one_move)).
Proof.
  split; [reflexivity|].
  apply (drive_exit_never_releases one_move); [reflexivity | discriminate].
Defined.

Lemma Forall2_release s lines :
  Forall2 is_release lines (map (release_line s) lines).
Proof.
  induction lines as [|line lines IH]; simpl; constructor; [|done].
  unfold is_release, release_line. destruct (release s line); auto.
Qed.

(** What the [finally] clause would do for a class that defines
    [_emergency_stop]: when that call returns, the stop is followed by a
    release attempt on every line, whatever happened in the loop. *)
Lemma exit_contract_with_helper cls s :
  "_emergency_stop" ∈ cls -> gpio s = true -> final_stop s = true ->
  snd (run_with cls s) <> StillRunning ->
  snd (run_with cls s) = Returns /\ safe_exit (fst (run_with cls s)).
Proof.
  intros Hdef Hg Hf Hexit. unfold run_with in *. rewrite Hg in *.
  assert (Hfin : finally_clause cls s (Some requested_lines) =
                 (MotorsStopped :: map (release_line s) requested_lines, None)).
  { unfold finally_clause, requested_lines; simpl.
    rewrite Hf, (call_defined _ _ _ Hdef). reflexivity. }
  rewrite Hfin in *.
  destruct (loop cls (ticks s)) as [evs [|e|]]; simpl in *; [| |done].
  - split; [done|]. exists evs, (map (release_line s) requested_lines).
    split; [done|]. apply Forall2_release.
  - split; [done|]. exists (evs ++ [Logged e]), (map (release_line s) requested_lines).
    split; [by rewrite <- app_assoc|]. apply Forall2_release.
Qed.

(** Even then, the stop in [finally] is outside any [try]: when it
    raises, no line is released. *)
Lemma failed_stop_skips_release cls s :
  gpio s = true -> final_stop s = false ->
  finally_clause cls s (Some requested_lines) = ([], Some DeviceError) \/
  finally_clause cls s (Some requested_lines) = ([], Some AttributeError).
Proof.
  intros Hg Hf. unfold finally_clause, requested_lines, call; simpl.
  rewrite Hf. destruct (bool_decide _); auto.
Qed.

End MotorProcessSpec.

(** ** Floats as rationals: the facts used below *)

Module FloatFacts.

Lemma Qlt_bool_iff x y : Qlt_bool x y = true <-> (x < y)%Q.
Proof.
  unfold Qlt_bool. rewrite negb_true_iff, <- not_true_iff_false, Qle_bool_iff.
  split; [apply Qnot_le_lt | apply Qlt_not_le].
Qed.

Lemma Qlt_bool_false x y : Qlt_bool x y = false <-> (y <= x)%Q.
Proof. unfold Qlt_bool. by rewrite negb_false_iff, Qle_bool_iff. Qed.

Lemma Qbetween_iff a x b : Qbetween a x b = true <-> (a <= x /\ x <= b)%Q.
Proof. unfold Qbetween. by rewrite andb_true_iff, !Qle_bool_iff. Qed.

(** The floor is the one integer with [z <= x < z + 1]. *)
Lemma Qfloor_unique (x : Q) (z : Z) :
  (inject_Z z <= x)%Q -> (x < inject_Z (z + 1))%Q -> Qfloor x = z.
Proof.
  intros Hle Hlt.
  pose proof (Qfloor_le x) as Hf. pose proof (Qlt_floor x) as Hf'.
  assert (z < Qfloor x + 1).
  { rewrite Zlt_Qlt. eapply Qle_lt_trans; eassumption. }
  assert (Qfloor x < z + 1).
  { rewrite Zlt_Qlt. eapply Qle_lt_trans; eassumption. }
  lia.
Qed.

Lemma Qnum_nonneg (x : Q) : 0 <= Qnum x <-> (0 <= x)%Q.
Proof. unfold Qle; simpl. lia. Qed.

(** Truncation is the floor of a value that is not negative, and the
    ceiling of a negative one. *)
Lemma Qtrunc_nonneg (x : Q) : (0 <= x)%Q -> Qtrunc x = Qfloor x.
Proof.
  intros H. apply Qnum_nonneg in H. unfold Qtrunc. destruct x as [n d]; simpl in *.
  apply Z.quot_div_nonneg; lia.
Qed.

Lemma Qtrunc_neg (x : Q) : (x < 0)%Q -> Qtrunc x = Qceiling x.
Proof.
  intros H. unfold Qtrunc, Qceiling. destruct x as [n d]; simpl.
  assert (n < 0) by (unfold Qlt in H; simpl in H; lia).
  rewrite <- (Z.opp_involutive n) at 1.
  rewrite Z.quot_opp_l by lia. f_equal.
  apply Z.quot_div_nonneg; lia.
Qed.

Lemma Qtrunc_wd (x y : Q) : (x == y)%Q -> Qtrunc x = Qtrunc y.
Proof.
  intros H. destruct (Qlt_le_dec x 0) as [Hx|Hx].
  - rewrite !Qtrunc_neg; [by rewrite H | by rewrite <- H | done].
  - rewrite !Qtrunc_nonneg; [by rewrite H | by rewrite <- H | done].
Qed.

(** A step of 0.05 added to an integer coordinate that is not negative
    is lost by the truncation. *)
Lemma Qtrunc_small_step (p : Z) (c : Q) :
  0 <= p -> (0 <= c)%Q -> (c <= 1)%Q ->
  Qtrunc (inject_Z p + (1 # 20) * c) = p.
Proof.
  intros Hp Hc Hc'.
  assert (H0 : (0 <= inject_Z p)%Q) by (unfold Qle; simpl; lia).
  rewrite Qtrunc_nonneg by lra.
  apply Qfloor_unique; [lra|].
  rewrite inject_Z_plus. change (inject_Z 1) with 1%Q. lra.
Qed.

(** [x % m] lies in [0, m) for a positive [m]. *)
Lemma py_mod_range (x m : Q) : (0 < m)%Q -> (0 <= py_mod x m /\ py_mod x m < m)%Q.
Proof.
  intros Hm. unfold py_mod.
  pose proof (Qfloor_le (x / m)) as Hf. pose proof (Qlt_floor (x / m)) as Hf'.
  rewrite inject_Z_plus in Hf'. change (inject_Z 1) with 1%Q in Hf'.
  set (f := inject_Z (Qfloor (x / m))) in *.
  assert (Hx : (x == m * (x / m))%Q) by (field; lra).
  assert (H1 : (m * f <= m * (x / m))%Q) by (apply Qmult_le_l; done).
  assert (H2 : (m * (x / m) < m * (f + 1))%Q) by (apply Qmult_lt_l; done).
  split; [lra|].
  assert (m * (f + 1) == m * f + m)%Q by ring. lra.
Qed.

End FloatFacts.

(** ** The explorer *)

Module ExplorerProcessSpec.
Import settings ExplorerProcess FloatFacts.

(** The test that the code makes on the angle of a scan point, as a
    number: [-30 <= angle <= 30]. *)
Definition in_cone (angle : Q) : Prop := (-30 <= angle /\ angle <= 30)%Q.

(** The frontal cone of the specification, for a scan angle in
    [0, 360): within 30 degrees of the heading, on either side. *)
Definition frontal (angle : Q) : Prop :=
  (0 <= angle /\ angle <= 30)%Q \/ (330 <= angle /\ angle < 360)%Q.

(** [nearest] is the least distance among the points that pass the test
    of the code, and infinite when none does. *)
Definition is_nearest (scan : list (Q * Q)) (nearest : distance) : Prop :=
  match nearest with
  | inf => forall a d, In (a, d) scan -> ~ in_cone a
  | finite d =>
      (exists a, In (a, d) scan /\ in_cone a) /\
      (forall a' d', In (a', d') scan -> in_cone a' -> (d <= d')%Q)
  end.

(** The part of the loop body that concerns [nearest]. *)
Definition nearest_step (nearest : distance) (pt : Q * Q) : distance :=
  if Qbetween (-30) (fst pt) 30 && closer (snd pt) nearest then finite (snd pt) else nearest.

(** One occupancy grid extends another: a cell keeps its value or, when
    it exists, becomes 1. *)
Definition grows (m m' : list (list Q)) : Prop :=
  forall y x, cell m' y x = cell m y x \/ (is_Some (cell m y x) /\ cell m' y x = Some 1%Q).

(** A small grid, to run the model. *)
Definition small : ExplorerConfig :=
  {| MAP_SIZE := 8;
     RESOLUTION := 1 # 20;
     MIN_DISTANCE := 3 # 10;
     TURN_SPEED := 3 # 10;
     FORWARD_SPEED := 1 # 2 |}.

Lemma nearest_fold_spec scan : forall n0,
  match fold_left nearest_step scan n0 with
  | inf => n0 = inf /\ forall a d, In (a, d) scan -> ~ in_cone a
  | finite d =>
      (n0 = finite d \/ exists a, In (a, d) scan /\ in_cone a) /\
      (forall d0, n0 = finite d0 -> (d <= d0)%Q) /\
      (forall a' d', In (a', d') scan -> in_cone a' -> (d <= d')%Q)
  end.
Proof.
  induction scan as [|[a d] scan IH]; intros n0; simpl.
  - destruct n0 as [|d0]; [by split; [|intros ? ? []]|].
    split; [by left|]. split; [|by intros ? ? []].
    intros ? [= <-]. apply Qle_refl.
  - specialize (IH (nearest_step n0 (a, d))).
    destruct (fold_left nearest_step scan _) as [|dmin].
    + destruct IH as [Hstep Hnone]. unfold nearest_step in Hstep; simpl in Hstep.
      destruct (Qbetween (-30) a 30 && closer d n0) eqn:Hb; [done|].
      split; [done|]. intros a' d' [[= <- <-]|Hin]; [|by eapply Hnone].
      intros Hcone. apply Qbetween_iff in Hcone.
      rewrite Hcone in Hb; simpl in Hb. subst n0. done.
    + destruct IH as (Hfrom & Hle & Hmin).
      unfold nearest_step in Hfrom, Hle; simpl in Hfrom, Hle.
      destruct (Qbetween (-30) a 30 && closer d n0) eqn:Hb.
      * apply andb_true_iff in Hb as [Hcone Hcl]. apply Qbetween_iff in Hcone.
        assert (Hd : (dmin <= d)%Q) by by apply Hle.
        split; [|split].
        -- right. destruct Hfrom as [[= ->]|(a0 & Hin & Hc)]; [by exists a; split; [left|]|].
           exists a0. split; [by right|done].
        -- intros d0 ->. simpl in Hcl. apply Qlt_bool_iff in Hcl. lra.
        -- intros a' d' [[= <- <-]|Hin] Hc; [done|by eapply Hmin].
      * split; [|split].
        -- destruct Hfrom as [->|(a0 & Hin & Hc)]; [by left|].
           right. exists a0. split; [by right|done].
        -- done.
        -- intros a' d' [[= <- <-]|Hin] Hc; [|by eapply Hmin].
           apply Qbetween_iff in Hc. rewrite Hc in Hb; simpl in Hb.
           destruct n0 as [|d0]; [done|]. simpl in Hb.
           apply Qlt_bool_false in Hb.
           assert ((dmin <= d0)%Q) by by apply Hle. lra.
Qed.

Lemma set_cell_grows m y x : grows m (set_cell m y x).
Proof.
  intros y' x'. unfold set_cell, cell.
  destruct (decide (y' = Z.to_nat y)) as [->|Hy].
  - rewrite list_lookup_alter_eq.
    destruct (m !! Z.to_nat y) as [row|]; simpl; [|by left].
    destruct (decide (x' = Z.to_nat x)) as [->|Hx].
    + destruct (decide (Z.to_nat x < length row)%nat) as [Hlt|Hge].
      * right. split; [by apply lookup_lt_is_Some|].
        by apply list_lookup_insert_eq.
      * left. rewrite list_insert_ge; [done|lia].
    + left. by apply list_lookup_insert_ne.
  - left. by rewrite list_lookup_alter_ne.
Qed.

Lemma grows_refl m : grows m m.
Proof. intros y x. by left. Qed.

Lemma grows_trans m1 m2 m3 : grows m1 m2 -> grows m2 m3 -> grows m1 m3.
Proof.
  intros H12 H23 y x.
  destruct (H12 y x) as [E12|[S1 E12]], (H23 y x) as [E23|[S2 E23]].
  - left. congruence.
  - right. split; [by rewrite <- E12|done].
  - right. split; [done|congruence].
  - right. by split.
Qed.

Lemma grows_occupied m m' y x : grows m m' -> occupied m y x -> occupied m' y x.
Proof.
  unfold occupied. intros H Ho. destruct (H y x) as [E|[_ E]]; congruence.
Qed.

Section WithConfig.
Context {np : NumPy} (cfg : ExplorerConfig).

Lemma point_step_fst st acc pt :
  fst (point_step cfg st acc pt) = nearest_step (fst acc) pt.
Proof.
  destruct acc as [n m], pt as [a d]. unfold point_step, nearest_step; simpl.
  reflexivity.
Qed.

Lemma point_step_grows st acc pt : grows (snd acc) (snd (point_step cfg st acc pt)).
Proof.
  destruct acc as [n m], pt as [a d]. unfold point_step; simpl.
  match goal with |- context [if ?b then set_cell _ _ _ else _] => destruct b end.
  - apply set_cell_grows.
  - apply grows_refl.
Qed.

Lemma fold_point_step st scan : forall acc,
  fst (fold_left (point_step cfg st) scan acc) = fold_left nearest_step scan (fst acc) /\
  grows (snd acc) (snd (fold_left (point_step cfg st) scan acc)).
Proof.
  induction scan as [|pt scan IH]; intros acc; simpl.
  - split; [done|apply grows_refl].
  - destruct (IH (point_step cfg st acc pt)) as [Hn Hg].
    rewrite Hn, point_step_fst. split; [done|].
    eapply grows_trans; [apply point_step_grows|exact Hg].
Qed.

(** What the loop computes: after the [for] loop over a scan, [nearest]
    is [inf] exactly when no point of the scan has its angle, as a number,
    in [-30, 30]; otherwise it is the distance of such a point, and no
    such point is closer. *)
Theorem nearest_is_cone_minimum (st : state) (scan : list (Q * Q)) :
  is_nearest scan (fst (scan_pass cfg st scan)) /\
  (fst (scan_pass cfg st scan) = inf <-> forall a d, In (a, d) scan -> ~ in_cone a).
Proof.
  unfold scan_pass.
  destruct (fold_point_step st scan (inf, map_data st)) as [-> _]; simpl.
  pose proof (nearest_fold_spec scan inf) as H.
  destruct (fold_left nearest_step scan inf) as [|d]; simpl.
  - destruct H as [_ H]. by split.
  - destruct H as ([|Hex] & _ & Hmin); [done|].
    split; [by split|].
    split; [done|]. intros Hnone.
    destruct Hex as (a & Hin & Hc). by destruct (Hnone a d Hin).
Qed.

Lemma process_scan_map st scan :
  map_data (fst (process_scan cfg st scan)) = snd (scan_pass cfg st scan).
Proof.
  unfold process_scan. destruct (scan_pass cfg st scan) as [n m].
  by destruct (below n (MIN_DISTANCE cfg)).
Qed.

Lemma process_scan_grows st scan :
  grows (map_data st) (map_data (fst (process_scan cfg st scan))).
Proof.
  rewrite process_scan_map. unfold scan_pass.
  by destruct (fold_point_step st scan (inf, map_data st)) as [_ H].
Qed.

(** C10.  From any state of the loop and for any later observations,
    every snapshot put on the data channel and the final grid extend the
    grid of that state: each cell keeps its value or becomes 1, so an
    occupied cell stays occupied. *)
Theorem occupied_cells_grow (st : state) (ticks : list tick) :
  Forall (fun snap => grows (map_data st) (map_data snap))
         (data_queue (snd (loop cfg st ticks))) /\
  grows (map_data st) (map_data (final (snd (loop cfg st ticks)))) /\
  (forall y x, occupied (map_data st) y x ->
     occupied (map_data (final (snd (loop cfg st ticks)))) y x /\
     Forall (fun snap => occupied (map_data snap) y x)
            (data_queue (snd (loop cfg st ticks)))).
Proof.
  assert (H : Forall (fun snap => grows (map_data st) (map_data snap))
                (data_queue (snd (loop cfg st ticks))) /\
              grows (map_data st) (map_data (final (snd (loop cfg st ticks))))).
  { revert st. induction ticks as [|[| |scan|] ticks IH]; intros st; simpl;
      try (split; [constructor | apply grows_refl]).
    - apply IH.
    - pose proof (process_scan_grows st scan) as Hg.
      destruct (process_scan cfg st scan) as [st' c]; simpl in Hg.
      destruct (IH st') as [Hq Hf].
      destruct (loop cfg st' ticks) as [s out]; simpl in *.
      split.
      + constructor; [done|].
        eapply Forall_impl; [exact Hq|].
        intros snap Hs. eapply grows_trans; [exact Hg|exact Hs].
      + eapply grows_trans; [exact Hg|exact Hf]. }
  destruct H as [Hq Hf]. split; [done|]. split; [done|].
  intros y x Ho. split; [exact (grows_occupied _ _ y x Hf Ho)|].
  eapply Forall_impl; [exact Hq|].
  intros snap Hs. exact (grows_occupied _ _ y x Hs Ho).
Qed.

(** The turn branch: the command, the heading wrapped into [0, 360), and
    the position left alone. *)
Lemma turn_step st scan :
  below (fst (scan_pass cfg st scan)) (MIN_DISTANCE cfg) = true ->
  snd (process_scan cfg st scan) = Move (- TURN_SPEED cfg) (TURN_SPEED cfg) /\
  orientation (fst (process_scan cfg st scan)) = py_mod (orientation st + 5) 360 /\
  (0 <= orientation (fst (process_scan cfg st scan)))%Q /\
  (orientation (fst (process_scan cfg st scan)) < 360)%Q /\
  position (fst (process_scan cfg st scan)) = position st.
Proof.
  intros Hb. unfold process_scan.
  destruct (scan_pass cfg st scan) as [n m]; simpl in Hb. rewrite Hb; simpl.
  repeat split; try done; by apply py_mod_range.
Qed.

(** The forward branch: the command, and the position as the code
    stores it. *)
Lemma forward_step st scan :
  below (fst (scan_pass cfg st scan)) (MIN_DISTANCE cfg) = false ->
  snd (process_scan cfg st scan) = Move (FORWARD_SPEED cfg) (FORWARD_SPEED cfg) /\
  orientation (fst (process_scan cfg st scan)) = orientation st /\
  position (fst (process_scan cfg st scan)) =
    (Qtrunc (inject_Z (fst (position st)) + (1 # 20) * cos (radians (orientation st))),
     Qtrunc (inject_Z (snd (position st)) + (1 # 20) * sin (radians (orientation st)))).
Proof.
  intros Hb. unfold process_scan.
  destruct (scan_pass cfg st scan) as [n m]; simpl in Hb. by rewrite Hb.
Qed.

(** C3, on the code as written.  When no frontal obstacle is below
    [MIN_DISTANCE], [Move FORWARD_SPEED FORWARD_SPEED] is emitted, but the
    step of 0.05 along a heading with cosine and sine in [0, 1] is lost:
    the position, stored in an integer array, is what it was. *)
Theorem forward_step_loses_position (st : state) (scan : list (Q * Q)) :
  below (fst (scan_pass cfg st scan)) (MIN_DISTANCE cfg) = false ->
  0 <= fst (position st) -> 0 <= snd (position st) ->
  (0 <= cos (radians (orientation st)) /\ cos (radians (orientation st)) <= 1)%Q ->
  (0 <= sin (radians (orientation st)) /\ sin (radians (orientation st)) <= 1)%Q ->
  snd (process_scan cfg st scan) = Move (FORWARD_SPEED cfg) (FORWARD_SPEED cfg) /\
  position (fst (process_scan cfg st scan)) = position st.
Proof.
  intros Hb Hx Hy [Hc Hc'] [Hs Hs'].
  destruct (forward_step st scan Hb) as (Hcmd & _ & Hpos).
  split; [done|]. rewrite Hpos.
  rewrite !Qtrunc_small_step by done. by destruct (position st).
Qed.

(** C2, on the code as written.  The scan angles lie in [0, 360), and
    the test [-30 <= angle <= 30] selects only those up to 30: a scan
    whose points all lie in the other half of the frontal cone, from 330
    to 360 degrees, gives [nearest = inf] however close they are, and the
    explorer drives forward. *)
Theorem cone_misses_angles_from_330 (st : state) (scan : list (Q * Q)) :
  Forall (fun pt => (330 <= fst pt /\ fst pt < 360)%Q) scan ->
  Forall (fun pt => frontal (fst pt)) scan /\
  fst (scan_pass cfg st scan) = inf /\
  snd (process_scan cfg st scan) = Move (FORWARD_SPEED cfg) (FORWARD_SPEED cfg).
Proof.
  intros Hall.
  assert (Hinf : fst (scan_pass cfg st scan) = inf).
  { apply nearest_is_cone_minimum. intros a d Hin [_ H30].
    rewrite Forall_forall in Hall.
    apply list_elem_of_In, Hall in Hin. simpl in Hin. lra. }
  split; [|split; [done|]].
  - eapply Forall_impl; [exact Hall|]. intros pt H. by right.
  - apply forward_step. by rewrite Hinf.
Qed.


End WithConfig.

(** The rational stand-in at heading 0: cosine 1 and sine 0. *)
Lemma np_rational_heading_0 :
  (@cos np_rational (@radians np_rational 0) == 1)%Q /\
  (@sin np_rational (@radians np_rational 0) == 0)%Q.
Proof. split; reflexivity. Qed.

(** The first scan of a session with the default configuration: one
    point straight ahead at 1 m.  The command is forward, and the
    position stays at the centre (500, 500). *)
Lemma forward_step_loses_position_witness :
  snd (@process_scan np_rational explorer (start explorer) [(0%Q, 1%Q)]) =
    Move (1 # 2) (1 # 2) /\
  position (fst (@process_scan np_rational explorer (start explorer) [(0%Q, 1%Q)])) =
    (500, 500).
Proof.
  apply (@forward_step_loses_position np_rational explorer (start explorer) [(0%Q, 1%Q)]).
  - unfold scan_pass.
    destruct (@fold_point_step np_rational explorer (start explorer) [(0%Q, 1%Q)]
                (inf, map_data (start explorer))) as [-> _].
    reflexivity.
  - cbn [start position fst]. discriminate.
  - cbn [start position snd]. discriminate.
  - split; discriminate.
  - split; discriminate.
Defined.

(** An obstacle 0.1 m ahead, 10 degrees to one side, reported at 350
    degrees: inside the frontal cone and closer than [MIN_DISTANCE], yet
    [nearest] is infinite and the command is forward.  The mirror point
    at 10 degrees makes the explorer turn. *)
Lemma cone_misses_angles_from_330_witness :
  (Forall (fun pt => frontal (fst pt)) [(350%Q, (1 # 10)%Q)] /\
   fst (@scan_pass np_rational explorer (start explorer) [(350%Q, (1 # 10)%Q)]) = inf /\
   snd (@process_scan np_rational explorer (start explorer) [(350%Q, (1 # 10)%Q)]) =
     Move (1 # 2) (1 # 2)) /\
  ((1 # 10) < MIN_DISTANCE explorer)%Q /\
  snd (@process_scan np_rational small (start small) [(10%Q, (1 # 10)%Q)]) =
    Move (- (3 # 10)) (3 # 10).
Proof.
  split; [|split; reflexivity].
  apply (@cone_misses_angles_from_330 np_rational explorer (start explorer)
           [(350%Q, (1 # 10)%Q)]).
  repeat constructor; discriminate.
Defined.


(** The specification's example for the frontal cone. *)
Example nearest_example :
  fst (@scan_pass np_rational small (start small) [(0%Q, 1%Q); (90%Q, 1%Q)]) = finite 1.
Proof. reflexivity. Qed.

(** A point at 350 degrees is outside the cone of the code. *)
Example nearest_example_350 :
  fst (@scan_pass np_rational small (start small) [(350%Q, (1 # 10)%Q)]) = inf.
Proof. reflexivity. Qed.

(** A session on the small grid: an obstacle at 0.1 m makes the explorer
    turn, and the cell it marked is still marked after the next scan. *)
Example session_example :
  let out := snd (@run np_rational small [Scan [(0%Q, (1 # 10)%Q)]; Empty; Scan [(90%Q, 1%Q)]; StopSet]) in
  motor_queue out = [Move (- (3 # 10)) (3 # 10); Move (1 # 2) (1 # 2); EmergencyStop] /\
  map (fun s => cell (map_data s) 4 6) (data_queue out) = [Some 1%Q; Some 1%Q] /\
  cell (map_data (start small)) 4 6 = Some 0%Q.
Proof. vm_compute. repeat split. Qed.

End ExplorerProcessSpec.

(** ** The supervisor: what the requests keep, the cache, the shutdown *)

Module SupervisorSpec.
Import VehicleController VehicleControllerSpec Supervisor.

Definition lidar0 : process := {| p_class := LiDARProcess; p_id := 0 |}.
Definition camera0 : process := {| p_class := CameraProcess; p_id := 1 |}.
Definition motor0 : process := {| p_class := MotorProcess; p_id := 2 |}.

(** The three workers started with the controller. *)
Definition core : list process := [lidar0; camera0; motor0].

(** What every request keeps: the three core workers stay in the
    dictionary, and the running processes are the core workers followed
    by the running explorers; an explorer entry is of class
    [ExplorerProcess]. *)
Record shape (self : t) : Prop := {
  shape_lidar : processes self !! "lidar" = Some lidar0;
  shape_camera : processes self !! "camera" = Some camera0;
  shape_motor : processes self !! "motor" = Some motor0;
  shape_running : running self = core ++ navigators self;
  shape_explorer : forall p, processes self !! "explorer" = Some p -> is_explorer p = true
}.

Lemma shape_init : shape init.
Proof.
  split; try reflexivity. intros p.
  assert (processes init !! "explorer" = None) as -> by reflexivity. done.
Qed.

Lemma terminate_app p l1 l2 : terminate p (l1 ++ l2) = terminate p l1 ++ terminate p l2.
Proof. unfold terminate. apply filter_app. Qed.

Lemma terminate_core p : is_explorer p = true -> terminate p core = core.
Proof.
  intros Hp. unfold terminate, core.
  rewrite !filter_cons, filter_nil.
  repeat case_decide; try done; subst p; discriminate Hp.
Qed.

Lemma shape_put_motor c self : shape self -> shape (put_motor c self).
Proof. intros []. by split. Qed.

Lemma shape_set_mode m self : shape self -> shape (set_mode m self).
Proof. intros []. by split. Qed.

Lemma shape_start_explorer self : shape self -> shape (start_explorer self).
Proof.
  intros [Hl Hc Hm Hr He]. split; simpl.
  - by rewrite lookup_insert_ne.
  - by rewrite lookup_insert_ne.
  - by rewrite lookup_insert_ne.
  - rewrite navigators_start_explorer, Hr. by rewrite <- app_assoc.
  - intros p. rewrite lookup_insert_eq. by intros [= <-].
Qed.

Lemma shape_stop_explorer self : shape self -> shape (stop_explorer self).
Proof.
  intros H. unfold stop_explorer.
  destruct (processes self !! "explorer") as [p|] eqn:Hp; [|exact H].
  destruct H as [Hl Hc Hm Hr He].
  split; simpl.
  - by rewrite lookup_delete_ne.
  - by rewrite lookup_delete_ne.
  - by rewrite lookup_delete_ne.
  - unfold navigators; simpl. rewrite navigators_terminate.
    fold (navigators self). rewrite Hr, terminate_app, terminate_core; [done|].
    by apply He.
  - intros q. by rewrite lookup_delete_eq.
Qed.

Lemma shape_apply self o : shape self -> shape (apply self o).
Proof.
  intros H. destruct o as [req|req|]; simpl.
  - unfold handle_control. destruct (negb _); [done|].
    destruct req as [|[l| |e] [r| |e']]; simpl; try done.
    destruct (negb _); simpl; [done|]. by apply shape_put_motor.
  - unfold handle_mode. destruct req as [new_mode|]; [|done].
    repeat (match goal with |- context [if ?b then _ else _] => destruct b end);
      simpl; try done.
    + by apply shape_set_mode, shape_start_explorer.
    + by apply shape_set_mode, shape_stop_explorer.
  - by apply shape_set_mode, shape_stop_explorer, shape_put_motor.
Qed.

Lemma shape_serve ops : shape (serve ops).
Proof.
  unfold serve. generalize shape_init. generalize init.
  induction ops as [|o ops IH]; intros self H; simpl; [done|].
  by apply IH, shape_apply.
Qed.

(** The keys that the dictionary can hold. *)
Definition known_key (k : string) : Prop :=
  k = "lidar" \/ k = "camera" \/ k = "motor" \/ k = "explorer".

Definition keys_known (self : t) : Prop :=
  forall k, is_Some (processes self !! k) -> known_key k.

Lemma keys_known_init : keys_known init.
Proof.
  intros k [p Hk]. unfold known_key. unfold init in Hk. cbn [processes] in Hk.
  apply lookup_insert_Some in Hk as [[<- _]|[_ Hk]]; [tauto|].
  apply lookup_insert_Some in Hk as [[<- _]|[_ Hk]]; [tauto|].
  apply lookup_insert_Some in Hk as [[<- _]|[_ Hk]]; [tauto|].
  by rewrite lookup_empty in Hk.
Qed.

Lemma keys_known_start_explorer self : keys_known self -> keys_known (start_explorer self).
Proof.
  intros H k [p Hk]. simpl in Hk.
  apply lookup_insert_Some in Hk as [[<- _]|[_ Hk]]; [unfold known_key; tauto|].
  apply H. by eexists.
Qed.

Lemma keys_known_stop_explorer self : keys_known self -> keys_known (stop_explorer self).
Proof.
  intros H k [p Hk]. unfold stop_explorer in Hk.
  destruct (processes self !! "explorer") as [q|]; simpl in Hk.
  - apply lookup_delete_Some in Hk as [_ Hk]. apply H. by eexists.
  - apply H. by eexists.
Qed.

Lemma keys_known_apply self o : keys_known self -> keys_known (apply self o).
Proof.
  intros H. destruct o as [req|req|]; simpl.
  - unfold handle_control. destruct (negb _); [done|].
    destruct req as [|[l| |e] [r| |e']]; simpl; try done.
    destruct (negb _); simpl; done.
  - unfold handle_mode. destruct req as [new_mode|]; [|done].
    repeat (match goal with |- context [if ?b then _ else _] => destruct b end);
      simpl; try done.
    + exact (keys_known_start_explorer self H).
    + exact (keys_known_stop_explorer self H).
  - exact (keys_known_stop_explorer (put_motor EmergencyStop self) H).
Qed.

Lemma keys_known_serve ops : keys_known (serve ops).
Proof.
  unfold serve. generalize keys_known_init. generalize init.
  induction ops as [|o ops IH]; intros self H; simpl; [done|].
  by apply IH, keys_known_apply.
Qed.

(** X1.  No sequence of requests touches the core entries of the
    dictionary: ["lidar"], ["camera"] and ["motor"] still map to the
    process objects made at start, and the only other key that can be
    present is ["explorer"]. *)
Theorem core_entries_kept (ops : list op) :
  processes (serve ops) !! "lidar" = Some lidar0 /\
  processes (serve ops) !! "camera" = Some camera0 /\
  processes (serve ops) !! "motor" = Some motor0 /\
  (forall k, is_Some (processes (serve ops) !! k) ->
     k = "lidar" \/ k = "camera" \/ k = "motor" \/ k = "explorer").
Proof.
  destruct (shape_serve ops) as [Hl Hc Hm _ _].
  repeat split; try done. apply keys_known_serve.
Qed.

(** A command of the channel with its speeds inside [-1.0, 1.0]. *)
Definition in_range (c : command) : Prop :=
  match c with
  | Move l r => (-1 <= l /\ l <= 1)%Q /\ (-1 <= r /\ r <= 1)%Q
  | EmergencyStop => True
  end.

Lemma in_range_apply self o :
  Forall in_range (motor_queue self) -> Forall in_range (motor_queue (apply self o)).
Proof.
  intros H. destruct o as [req|req|]; simpl.
  - unfold handle_control. destruct (negb _); [done|].
    destruct req as [|[l| |e] [r| |e']]; simpl; try done.
    destruct (_validate_speed l && _validate_speed r) eqn:Hv; simpl; [|done].
    apply andb_true_iff in Hv as [Hl Hr]. apply _validate_speed_spec in Hl, Hr.
    apply Forall_app. split; [done|].
    constructor; [by split|constructor].
  - by rewrite handle_mode_motor_queue.
  - unfold stop_explorer; simpl.
    destruct (processes self !! "explorer"); simpl;
      (apply Forall_app; split; [done|]; constructor; [done|constructor]).
Qed.

(** X2.  Every [Move] that the supervisor has put on the command channel,
    after any sequence of requests, has both speeds inside
    [-1.0, 1.0]. *)
Theorem forwarded_moves_in_range (ops : list op) :
  Forall in_range (motor_queue (serve ops)).
Proof.
  unfold serve. assert (H : Forall in_range (motor_queue init)) by constructor.
  revert H. generalize init.
  induction ops as [|o ops IH]; intros self H; simpl; [done|].
  by apply IH, in_range_apply.
Qed.

(** X3.  From manual mode, entering explore and leaving it again by
    set-mode requests gives back the mode and the dictionary: the entry
    put under ["explorer"] is the one deleted, and no other entry is
    touched. *)
Theorem explore_round_trip_dictionary (ops : list op) :
  mode (serve ops) = "manual" ->
  mode (serve (ops ++ [SetMode (Some "explore")])) = "explore" /\
  is_Some (processes (serve (ops ++ [SetMode (Some "explore")])) !! "explorer") /\
  mode (serve (ops ++ [SetMode (Some "explore"); SetMode (Some "manual")])) =
    mode (serve ops) /\
  processes (serve (ops ++ [SetMode (Some "explore"); SetMode (Some "manual")])) =
    processes (serve ops).
Proof.
  intros Hm. unfold serve. rewrite !fold_left_app. fold (serve ops). simpl.
  destruct (mode_inv_serve ops) as [_ Hp Hn | p Hm' _ _]; [|congruence].
  unfold handle_mode. rewrite Hm; simpl.
  unfold stop_explorer; simpl. rewrite lookup_insert_eq; simpl.
  repeat split; [by eexists|]. by rewrite delete_insert_id.
Qed.

Lemma explore_round_trip_dictionary_witness :
  mode (serve ([] ++ [SetMode (Some "explore")])) = "explore" /\
  is_Some (processes (serve ([] ++ [SetMode (Some "explore")])) !! "explorer") /\
  mode (serve ([] ++ [SetMode (Some "explore"); SetMode (Some "manual")])) = "manual" /\
  processes (serve ([] ++ [SetMode (Some "explore"); SetMode (Some "manual")])) =
    processes init.
Proof. apply (explore_round_trip_dictionary []). reflexivity. Defined.

Lemma foldr_terminate ps : forall l,
  foldr terminate l ps = filter (fun q => q ∉ ps) l.
Proof.
  induction ps as [|p ps IH]; intros l; simpl.
  - symmetry. induction l as [|q l IHl]; [done|].
    rewrite filter_cons. case_decide as H; [by rewrite IHl|].
    exfalso. by apply (not_elem_of_nil q).
  - rewrite IH. unfold terminate. rewrite list_filter_filter.
    apply list_filter_iff. intros q. rewrite not_elem_of_cons. tauto.
Qed.

(** X4.  After [stop], following any sequence of requests, no process that
    the controller started is left running: each one is in the
    dictionary, so it was joined or terminated. *)
Theorem stop_leaves_none_running (exits : process -> bool) (ops : list op) :
  running (fst (stop exits (serve ops))) = [] /\
  (forall p, p ∈ running (serve ops) ->
     Joined p ∈ snd (stop exits (serve ops)) \/
     Terminated p ∈ snd (stop exits (serve ops))).
Proof.
  assert (Hin : forall p, p ∈ running (serve ops) ->
                  p ∈ (map_to_list (processes (serve ops))).*2).
  { intros p Hp. destruct (shape_serve ops) as [Hl Hc Hm Hr _].
    rewrite Hr in Hp. apply elem_of_app in Hp as [Hp|Hp].
    - apply list_elem_of_fmap.
      unfold core in Hp. rewrite !elem_of_cons in Hp.
      destruct Hp as [->|[->|[->|Hp]]]; [| | |by apply elem_of_nil in Hp].
      + exists ("lidar", lidar0). split; [done|]. by apply elem_of_map_to_list.
      + exists ("camera", camera0). split; [done|]. by apply elem_of_map_to_list.
      + exists ("motor", motor0). split; [done|]. by apply elem_of_map_to_list.
    - destruct (mode_inv_serve ops) as [_ _ Hn | q _ Hq Hn]; rewrite Hn in Hp.
      + by apply elem_of_nil in Hp.
      + apply list_elem_of_singleton in Hp as ->.
        apply list_elem_of_fmap. exists ("explorer", q).
        split; [done|]. by apply elem_of_map_to_list. }
  split.
  - unfold stop; simpl. rewrite foldr_terminate.
    induction (running (serve ops)) as [|q l IH]; [done|].
    rewrite filter_cons. case_decide as Hq.
    + exfalso. apply Hq, Hin. by left.
    + apply IH. intros p Hp. apply Hin. by right.
  - intros p Hp. apply Hin in Hp. unfold stop; simpl.
    destruct (exits p) eqn:He; [left|right];
      apply list_elem_of_fmap; exists p; by rewrite He.
Qed.

(** The frames and the snapshots of a list of items, in order. *)
Definition frames_of (items : list item) : list string :=
  omap (fun i => match i with frame data => Some data | _ => None end) items.

Definition snapshots_of (items : list item) : list ExplorerProcess.state :=
  omap (fun i => match i with map_ s => Some s | _ => None end) items.

Definition pose_of (s : ExplorerProcess.state) : pose :=
  {| x := fst (ExplorerProcess.position s);
     y := snd (ExplorerProcess.position s);
     orientation := ExplorerProcess.orientation s |}.

Lemma poll_step c i rest : poll (c, i :: rest) = (store c i, rest).
Proof. reflexivity. Qed.

(** X5.  [n] iterations of [_process_data] store the first [n] items of the
    queue in their order and leave the others on the queue. *)
Theorem polls_fifo (n : nat) (c : cache) (queue : list item) :
  polls n (c, queue) = (fold_left store (take n queue) c, drop n queue).
Proof.
  revert c queue. induction n as [|n IH]; intros c queue; simpl.
  - reflexivity.
  - destruct queue as [|i rest].
    + change (poll (c, [])) with (c, @nil item). rewrite (IH c []).
      by rewrite take_nil, drop_nil.
    + rewrite poll_step. apply IH.
Qed.

Lemma store_all_snoc items i c :
  fold_left store (items ++ [i]) c = store (fold_left store items c) i.
Proof. by rewrite fold_left_app. Qed.

Lemma store_all_last (items : list item) :
  latest_frame (fold_left store items empty_cache) = last (frames_of items) /\
  latest_map (fold_left store items empty_cache) =
    ExplorerProcess.map_data <$> last (snapshots_of items) /\
  latest_position (fold_left store items empty_cache) =
    pose_of <$> last (snapshots_of items).
Proof.
  induction items as [|i items IH] using rev_ind; [done|].
  rewrite store_all_snoc.
  unfold frames_of, snapshots_of in *. rewrite !omap_app.
  destruct IH as (Hf & Hm & Hp).
  destruct i as [data|s|]; simpl.
  - rewrite last_snoc, app_nil_r. done.
  - rewrite last_snoc, app_nil_r. done.
  - by rewrite !app_nil_r.
Qed.

(** X6.  Last writer wins, per tag: after the items of a queue are stored
    into the empty cache, the cached frame is the last frame of the
    queue, and the cached map and position are both those of the last
    snapshot of the queue, or both absent when there was none. *)
Theorem cache_last_writer_wins (items : list item) :
  latest_frame (fold_left store items empty_cache) = last (frames_of items) /\
  latest_map (fold_left store items empty_cache) =
    ExplorerProcess.map_data <$> last (snapshots_of items) /\
  latest_position (fold_left store items empty_cache) =
    pose_of <$> last (snapshots_of items).
Proof. apply store_all_last. Qed.

(** X7.  The read operations on a cache filled from the empty one: the map
    is found exactly when the position is, and the camera frame is found
    exactly when the last frame received is not the empty string. *)
Theorem reads_after_store (items : list item) :
  let c := fold_left store items empty_cache in
  ((exists m, get_map c = found m) <-> (exists p, get_position c = found p)) /\
  (forall data, get_camera c = found data <->
     last (frames_of items) = Some data /\ data <> "").
Proof.
  destruct (store_all_last items) as (Hf & Hm & Hp). simpl.
  unfold get_map, get_position, get_camera. rewrite Hf, Hm, Hp.
  split.
  - destruct (last (snapshots_of items)); simpl; split; intros [? ?]; try done; by eexists.
  - intros data. destruct (last (frames_of items)) as [d|]; [|by split; [|intros []]].
    destruct (String.eqb d "") eqn:He.
    + apply String.eqb_eq in He as ->. split; [done|]. by intros [[= <-] ?].
    + apply String.eqb_neq in He. split.
      * by intros [= ->].
      * by intros [[= ->] _].
Qed.

End SupervisorSpec.

(** ** The explorer: the grid, the heading and the queues over a session *)

Module ExplorerSessionSpec.
Import settings ExplorerProcess FloatFacts ExplorerProcessSpec.

(** A grid of [n] rows of [n] cells. *)
Definition square (n : nat) (m : list (list Q)) : Prop :=
  length m = n /\ Forall (fun row => length row = n) m.

(** The heading is a number of degrees in [0, 360). *)
Definition heading_ok (st : state) : Prop :=
  (0 <= orientation st /\ orientation st < 360)%Q.

(** The scans that the loop processes: those before the first stop or
    termination. *)
Fixpoint scans_processed (ticks : list tick) : list (list (Q * Q)) :=
  match ticks with
  | [] | StopSet :: _ | Terminated :: _ => []
  | Empty :: rest => scans_processed rest
  | Scan scan :: rest => scan :: scans_processed rest
  end.

(** A stand-in for numpy whose cosine and sine stay in [-1, 1]: the
    values of [np_rational], cut off at -1 and 1. *)
Definition clamp (v : Q) : Q :=
  if Qle_bool v (-1) then (-1)%Q else if Qle_bool 1 v then 1%Q else v.

Definition np_clamped : NumPy :=
  {| radians := @radians np_rational;
     cos := fun a => clamp (@cos np_rational a);
     sin := fun a => clamp (@sin np_rational a) |}.

Lemma clamp_range v : (-1 <= clamp v /\ clamp v <= 1)%Q.
Proof.
  unfold clamp. destruct (Qle_bool v (-1)) eqn:H1; [split; discriminate|].
  destruct (Qle_bool 1 v) eqn:H2; [split; discriminate|].
  apply not_true_iff_false in H1, H2. rewrite Qle_bool_iff in H1, H2.
  apply Qnot_le_lt in H1, H2. split; apply Qlt_le_weak; done.
Qed.

Lemma square_set_cell n m y x : square n m -> square n (set_cell m y x).
Proof.
  intros [Hlen Hrows]. unfold set_cell. split; [by rewrite length_alter|].
  rewrite Forall_lookup in Hrows |- *. intros i row.
  destruct (decide (i = Z.to_nat y)) as [->|Hi].
  - rewrite list_lookup_alter_eq.
    destruct (m !! Z.to_nat y) as [row0|] eqn:Hrow; simpl; [|done].
    intros [= <-]. rewrite length_insert. by eapply Hrows.
  - rewrite list_lookup_alter_ne by done. apply Hrows.
Qed.

Lemma square_cell n m y x : square n m -> (y < n)%nat -> (x < n)%nat -> is_Some (cell m y x).
Proof.
  intros [Hlen Hrows] Hy Hx. unfold cell.
  destruct (lookup_lt_is_Some_2 m y) as [row Hrow]; [lia|].
  rewrite Hrow. apply lookup_lt_is_Some_2.
  rewrite Forall_lookup in Hrows. by rewrite (Hrows y row Hrow).
Qed.

(** In a square grid, [map_data[y, x] = 1] inside the bounds gives
    exactly one more occupied cell. *)
Lemma occupied_set_cell n m (y x : Z) (y' x' : nat) :
  square n m -> (Z.to_nat y < n)%nat -> (Z.to_nat x < n)%nat ->
  occupied (set_cell m y x) y' x' <->
  occupied m y' x' \/ (y' = Z.to_nat y /\ x' = Z.to_nat x).
Proof.
  intros Hsq Hy Hx. unfold occupied.
  destruct (square_cell n m _ _ Hsq Hy Hx) as [v Hv].
  unfold set_cell, cell in *.
  destruct (decide (y' = Z.to_nat y)) as [->|Hy'].
  - rewrite list_lookup_alter_eq.
    destruct (m !! Z.to_nat y) as [row|]; [|done]. simpl.
    destruct (decide (x' = Z.to_nat x)) as [->|Hx'].
    + rewrite list_lookup_insert_eq by (by apply lookup_lt_is_Some; eexists).
      split; [by right|done].
    + rewrite list_lookup_insert_ne by done.
      split; [by left|]. intros [|[_ ?]]; done.
  - rewrite list_lookup_alter_ne by done.
    split; [by left|]. intros [|[? _]]; done.
Qed.

Section WithConfig.
Context {np : NumPy} (cfg : ExplorerConfig).

(** The cell that the loop body computes for a point: column [x], row
    [y]. *)
Definition projection (st : state) (pt : Q * Q) : Z * Z :=
  let rad_angle := radians (fst pt + orientation st)%Q in
  (Qtrunc (inject_Z (fst (position st)) + snd pt * cos rad_angle / RESOLUTION cfg)%Q,
   Qtrunc (inject_Z (snd (position st)) + snd pt * sin rad_angle / RESOLUTION cfg)%Q).

(** The cell [(row, column)] that a point marks, when its projection is
    inside the grid. *)
Definition hit (st : state) (pt : Q * Q) : option (nat * nat) :=
  let '(x, y) := projection st pt in
  if (0 <=? x) && (x <? MAP_SIZE cfg) && (0 <=? y) && (y <? MAP_SIZE cfg)
  then Some (Z.to_nat y, Z.to_nat x) else None.

Lemma hit_inside st pt y x :
  hit st pt = Some (y, x) ->
  (y < Z.to_nat (MAP_SIZE cfg))%nat /\ (x < Z.to_nat (MAP_SIZE cfg))%nat.
Proof.
  unfold hit. destruct (projection st pt) as [px py].
  destruct (_ && _) eqn:Hb; [|done]. intros [= <- <-].
  repeat (apply andb_true_iff in Hb as [Hb ?]). lia.
Qed.

Lemma point_step_snd st acc pt :
  snd (point_step cfg st acc pt) =
  match hit st pt with
  | Some _ => set_cell (snd acc) (snd (projection st pt)) (fst (projection st pt))
  | None => snd acc
  end.
Proof.
  destruct acc as [n m], pt as [a d]. unfold point_step, hit, projection; simpl.
  by destruct (_ && _).
Qed.

Lemma hit_projection st pt y x :
  hit st pt = Some (y, x) ->
  y = Z.to_nat (snd (projection st pt)) /\ x = Z.to_nat (fst (projection st pt)).
Proof.
  unfold hit. destruct (projection st pt) as [px py]; simpl.
  destruct (_ && _); [|done]. by intros [= <- <-].
Qed.

Lemma fold_point_step_hits st scan : forall acc,
  (forall pt, In pt scan -> hit st pt = None) ->
  snd (fold_left (point_step cfg st) scan acc) = snd acc.
Proof.
  induction scan as [|pt scan IH]; intros acc Hnone; simpl; [done|].
  rewrite IH by (intros pt' Hin; apply Hnone; by right).
  rewrite point_step_snd, (Hnone pt) by (by left). done.
Qed.

(** X8.  A scan whose points all project outside the grid leaves the grid as
    it was. *)
Theorem outside_points_leave_grid (st : state) (scan : list (Q * Q)) :
  (forall pt, In pt scan -> hit st pt = None) ->
  map_data (fst (process_scan cfg st scan)) = map_data st.
Proof.
  intros Hnone. rewrite process_scan_map. unfold scan_pass.
  by rewrite fold_point_step_hits.
Qed.

Lemma fold_point_step_occupied st scan n : forall acc,
  n = Z.to_nat (MAP_SIZE cfg) -> square n (snd acc) ->
  square n (snd (fold_left (point_step cfg st) scan acc)) /\
  forall y x,
    occupied (snd (fold_left (point_step cfg st) scan acc)) y x <->
    occupied (snd acc) y x \/ exists pt, In pt scan /\ hit st pt = Some (y, x).
Proof.
  intros acc Hn. revert acc.
  induction scan as [|pt scan IH]; intros acc Hsq; simpl.
  - split; [done|]. intros y x. split; [by left|]. by intros [|(? & [] & _)].
  - assert (Hsq' : square n (snd (point_step cfg st acc pt))).
    { rewrite point_step_snd. destruct (hit st pt); [by apply square_set_cell|done]. }
    destruct (IH _ Hsq') as [Hfin Hocc]. split; [done|].
    intros y x. rewrite Hocc, point_step_snd.
    destruct (hit st pt) as [[hy hx]|] eqn:Hhit.
    + destruct (hit_inside _ _ _ _ Hhit) as [Hy Hx].
      destruct (hit_projection _ _ _ _ Hhit) as [Ey Ex].
      rewrite (occupied_set_cell n) by (done || lia).
      rewrite <- Ey, <- Ex. split.
      * intros [[Ho|[-> ->]]|(pt' & Hin & Hpt')].
        -- by left.
        -- right. exists pt. split; [by left|done].
        -- right. exists pt'. split; [by right|done].
      * intros [Ho|(pt' & [<-|Hin] & Hpt')].
        -- left. by left.
        -- left. right. rewrite Hhit in Hpt'. by injection Hpt' as <- <-.
        -- right. by exists pt'.
    + split.
      * intros [Ho|(pt' & Hin & Hpt')]; [by left|].
        right. exists pt'. split; [by right|done].
      * intros [Ho|(pt' & [<-|Hin] & Hpt')]; [by left|congruence|].
        right. by exists pt'.
Qed.

(** X9.  On a square grid of [MAP_SIZE] rows, a cell is occupied after a scan
    exactly when it was occupied before or some point of the scan
    projects onto it inside the grid. *)
Theorem scan_marks_exactly_the_hits (st : state) (scan : list (Q * Q)) (y x : nat) :
  square (Z.to_nat (MAP_SIZE cfg)) (map_data st) ->
  occupied (map_data (fst (process_scan cfg st scan))) y x <->
  occupied (map_data st) y x \/ exists pt, In pt scan /\ hit st pt = Some (y, x).
Proof.
  intros Hsq. rewrite process_scan_map. unfold scan_pass.
  by destruct (fold_point_step_occupied st scan _ (inf, map_data st) eq_refl Hsq)
    as [_ H].
Qed.

Lemma square_start : square (Z.to_nat (MAP_SIZE cfg)) (map_data (start cfg)).
Proof.
  unfold start, square; simpl. rewrite repeat_length. split; [done|].
  apply Forall_forall. intros row Hrow.
  apply list_elem_of_In, repeat_spec in Hrow as ->. apply repeat_length.
Qed.

Lemma square_process_scan st scan n :
  n = Z.to_nat (MAP_SIZE cfg) -> square n (map_data st) ->
  square n (map_data (fst (process_scan cfg st scan))).
Proof.
  intros Hn Hsq. rewrite process_scan_map. unfold scan_pass.
  by destruct (fold_point_step_occupied st scan n (inf, map_data st) Hn Hsq).
Qed.

Lemma heading_process_scan st scan :
  heading_ok st -> heading_ok (fst (process_scan cfg st scan)).
Proof.
  intros H. unfold heading_ok.
  destruct (below (fst (scan_pass cfg st scan)) (MIN_DISTANCE cfg)) eqn:Hb.
  - destruct (turn_step cfg st scan Hb) as (_ & _ & H0 & H360 & _). by split.
  - destruct (forward_step cfg st scan Hb) as (_ & -> & _). exact H.
Qed.

(** A property of the state kept by [process_scan] holds for every
    snapshot and for the final state of the loop. *)
Lemma loop_invariant (P : state -> Prop) :
  (forall st scan, P st -> P (fst (process_scan cfg st scan))) ->
  forall ticks st, P st ->
    Forall P (data_queue (snd (loop cfg st ticks))) /\ P (final (snd (loop cfg st ticks))).
Proof.
  intros Hstep ticks. induction ticks as [|[| |scan|] ticks IH]; intros st Hst; simpl;
    try (split; [constructor|done]).
  - by apply IH.
  - specialize (Hstep st scan Hst).
    destruct (process_scan cfg st scan) as [st' c]; simpl in Hstep.
    destruct (IH st' Hstep) as [Hq Hf].
    destruct (loop cfg st' ticks) as [s out]; simpl in *.
    split; [by constructor|done].
Qed.

(** X10.  Over a session, every snapshot put on the data channel and the final
    state have a grid of [MAP_SIZE] rows of [MAP_SIZE] cells and a
    heading in [0, 360). *)
Theorem session_keeps_shape_and_heading (ticks : list tick) :
  Forall (fun s => square (Z.to_nat (MAP_SIZE cfg)) (map_data s) /\ heading_ok s)
         (data_queue (snd (run cfg ticks))) /\
  square (Z.to_nat (MAP_SIZE cfg)) (map_data (final (snd (run cfg ticks)))) /\
  heading_ok (final (snd (run cfg ticks))).
Proof.
  unfold run.
  destruct (loop_invariant
              (fun s => square (Z.to_nat (MAP_SIZE cfg)) (map_data s) /\ heading_ok s))
    with (ticks := ticks) (st := start cfg) as [Hq [Hf Hh]].
  - intros st scan [Hsq Hh]. split.
    + by apply square_process_scan.
    + by apply heading_process_scan.
  - split; [apply square_start|]. unfold heading_ok, start; simpl.
    split; [discriminate|reflexivity].
  - done.
Qed.

(** The counts of the loop of the model, where a termination is taken
    between two iterations. *)
Lemma loop_counts (st : state) (ticks : list tick) :
  length (data_queue (snd (loop cfg st ticks))) = length (scans_processed ticks) /\
  length (List.filter is_move (motor_queue (snd (loop cfg st ticks)))) =
    length (scans_processed ticks) /\
  final (snd (loop cfg st ticks)) = default st (last (data_queue (snd (loop cfg st ticks)))).
Proof.
  revert st. induction ticks as [|[| |scan|] ticks IH]; intros st; simpl; try done.
  assert (Hc : is_move (snd (process_scan cfg st scan)) = true).
  { unfold process_scan. destruct (scan_pass cfg st scan) as [n m].
    by destruct (below n (MIN_DISTANCE cfg)). }
  destruct (process_scan cfg st scan) as [st' c]; simpl in Hc.
  destruct (IH st') as (Hd & Hm & Hf).
  destruct (loop cfg st' ticks) as [s out]; simpl in *.
  rewrite Hc; simpl. rewrite Hd, Hm. split; [done|]. split; [done|].
  rewrite Hf. destruct (data_queue out) as [|s0 l]; [done|].
  rewrite last_cons_cons. destruct (last (s0 :: l)) eqn:Hlast; [done|].
  by apply last_None in Hlast.
Qed.

(** The commands of a run that returned: [Move]s, then one
    [EmergencyStop]. *)
Lemma exited_motor_queue (st : state) (ticks : list tick) :
  fst (loop cfg st ticks) = Exited ->
  exists moves,
    motor_queue (snd (loop cfg st ticks)) = moves ++ [EmergencyStop] /\
    Forall (fun c => is_move c = true) moves.
Proof.
  revert st. induction ticks as [|[| |scan|] ticks IH]; intros st; simpl; try done.
  - intros _. exists []. by split.
  - apply IH.
  - assert (Hc : is_move (snd (process_scan cfg st scan)) = true).
    { unfold process_scan. destruct (scan_pass cfg st scan) as [n m].
      by destruct (below n (MIN_DISTANCE cfg)). }
    destruct (process_scan cfg st scan) as [st' c]; simpl in Hc.
    specialize (IH st').
    destruct (loop cfg st' ticks) as [s out]; simpl in *.
    intros Hs. destruct (IH Hs) as (moves & -> & Hm).
    exists (c :: moves). split; [done|]. by constructor.
Qed.

(** X11.  One scan, one command, one snapshot, for a run that returned
    (the stop event was seen; a terminated run is excluded): the
    commands put on the command channel are one [Move] per scan
    processed followed by one [EmergencyStop], the data channel has one
    snapshot per scan processed, and the last snapshot is the final
    state. *)
Theorem one_move_and_snapshot_per_scan (st : state) (ticks : list tick) :
  fst (loop cfg st ticks) = Exited ->
  length (data_queue (snd (loop cfg st ticks))) = length (scans_processed ticks) /\
  length (motor_queue (snd (loop cfg st ticks))) = S (length (scans_processed ticks)) /\
  length (List.filter is_move (motor_queue (snd (loop cfg st ticks)))) =
    length (scans_processed ticks) /\
  last (motor_queue (snd (loop cfg st ticks))) = Some EmergencyStop /\
  final (snd (loop cfg st ticks)) = default st (last (data_queue (snd (loop cfg st ticks)))).
Proof.
  intros Hexit. destruct (loop_counts st ticks) as (Hd & Hm & Hf).
  destruct (exited_motor_queue st ticks Hexit) as (moves & Hq & Hmoves).
  assert (Hfilter : List.filter is_move moves = moves).
  { clear Hq. induction moves as [|c moves IH]; [done|].
    apply Forall_cons in Hmoves as [Hc Hmoves]. simpl. rewrite Hc. by rewrite IH. }
  rewrite Hq in Hm |- *. rewrite List.filter_app, Hfilter in Hm. simpl in Hm.
  rewrite app_nil_r in Hm.
  rewrite List.filter_app, Hfilter, length_app, last_snoc; simpl.
  rewrite app_nil_r. repeat split; try done. lia.
Qed.

(** With a cosine and a sine in [-1, 1], a component of the position
    that is not negative stays between 0 and its value: the recorded
    position never moves away from the origin of the grid. *)
Lemma Qtrunc_step_range (p : Z) (c : Q) :
  0 <= p -> (-1 <= c)%Q -> (c <= 1)%Q ->
  0 <= Qtrunc (inject_Z p + (1 # 20) * c) <= p.
Proof.
  intros Hp Hc Hc'.
  assert (H0 : (0 <= inject_Z p)%Q) by (unfold Qle; simpl; lia).
  set (v := (inject_Z p + (1 # 20) * c)%Q).
  destruct (Qlt_le_dec v 0) as [Hneg|Hpos].
  - rewrite Qtrunc_neg by done. unfold Qceiling.
    assert (Qfloor (- v) = 0) as ->.
    { apply Qfloor_unique.
      - change (inject_Z 0) with 0%Q. unfold v in *. lra.
      - change (inject_Z (0 + 1)) with 1%Q. unfold v in *. lra. }
    lia.
  - rewrite Qtrunc_nonneg by done. split.
    + change 0 with (Qfloor 0). by apply Qfloor_resp_le.
    + assert (Qfloor v < p + 1); [|lia].
      rewrite Zlt_Qlt. eapply Qle_lt_trans; [apply Qfloor_le|].
      rewrite inject_Z_plus. change (inject_Z 1) with 1%Q. unfold v. lra.
Qed.

(** The position of a state lies between the origin and the centre of
    the grid. *)
Definition position_ok (st : state) : Prop :=
  0 <= fst (position st) <= MAP_SIZE cfg / 2 /\
  0 <= snd (position st) <= MAP_SIZE cfg / 2.

(** X12.  With numpy's cosine and sine in [-1, 1], the position recorded over
    a session never leaves the square between the origin and the centre
    of the grid, where it starts. *)
Theorem position_stays_below_centre (ticks : list tick) :
  (forall a, (-1 <= cos a /\ cos a <= 1)%Q) ->
  (forall a, (-1 <= sin a /\ sin a <= 1)%Q) ->
  0 <= MAP_SIZE cfg ->
  Forall position_ok (data_queue (snd (run cfg ticks))) /\
  position_ok (final (snd (run cfg ticks))).
Proof.
  intros Hcos Hsin Hsize. unfold run. apply loop_invariant.
  - intros st scan [[Hx Hx'] [Hy Hy']]. unfold position_ok.
    destruct (below (fst (scan_pass cfg st scan)) (MIN_DISTANCE cfg)) eqn:Hb.
    + destruct (turn_step cfg st scan Hb) as (_ & _ & _ & _ & ->). done.
    + destruct (forward_step cfg st scan Hb) as (_ & _ & ->). simpl.
      destruct (Hcos (radians (orientation st))) as [Hc Hc'].
      destruct (Hsin (radians (orientation st))) as [Hs Hs'].
      pose proof (Qtrunc_step_range (fst (position st)) _ Hx Hc Hc').
      pose proof (Qtrunc_step_range (snd (position st)) _ Hy Hs Hs').
      lia.
  - unfold position_ok, start; simpl.
    assert (0 <= MAP_SIZE cfg / 2) by (apply Z.div_pos; lia). lia.
Qed.

End WithConfig.

Lemma outside_points_leave_grid_witness :
  map_data (fst (@process_scan np_rational small (start small) [(0%Q, 1%Q); (90%Q, 2%Q)])) =
  map_data (start small).
Proof.
  apply (@outside_points_leave_grid np_rational small (start small) [(0%Q, 1%Q); (90%Q, 2%Q)]).
  intros pt [<-|[<-|[]]]; reflexivity.
Defined.

Lemma scan_marks_exactly_the_hits_witness :
  occupied (map_data (fst (@process_scan np_rational small (start small) [(0%Q, (1 # 10)%Q)]))) 4 6 <->
  occupied (map_data (start small)) 4 6 \/
  exists pt, In pt [(0%Q, (1 # 10)%Q)] /\ @hit np_rational small (start small) pt = Some (4, 6)%nat.
Proof.
  apply (@scan_marks_exactly_the_hits np_rational small (start small) [(0%Q, (1 # 10)%Q)] 4 6).
  apply square_start.
Defined.

Lemma one_move_and_snapshot_per_scan_witness :
  let out := snd (@loop np_rational small (start small)
                    [Scan [(0%Q, (1 # 10)%Q)]; Empty; Scan [(90%Q, 1%Q)]; StopSet; Scan []]) in
  length (data_queue out) = 2%nat /\
  length (motor_queue out) = 3%nat /\
  length (List.filter is_move (motor_queue out)) = 2%nat /\
  last (motor_queue out) = Some EmergencyStop /\
  final out = default (start small) (last (data_queue out)).
Proof.
  apply (@one_move_and_snapshot_per_scan np_rational small (start small)
           [Scan [(0%Q, (1 # 10)%Q)]; Empty; Scan [(90%Q, 1%Q)]; StopSet; Scan []]).
  reflexivity.
Defined.

Lemma position_stays_below_centre_witness :
  Forall (@position_ok small)
    (data_queue (snd (@run np_clamped small [Scan [(0%Q, 1%Q)]; Scan [(0%Q, (1 # 10)%Q)]; StopSet]))) /\
  @position_ok small
    (final (snd (@run np_clamped small [Scan [(0%Q, 1%Q)]; Scan [(0%Q, (1 # 10)%Q)]; StopSet]))).
Proof.
  apply (@position_stays_below_centre np_clamped small).
  - intros a. apply clamp_range.
  - intros a. apply clamp_range.
  - discriminate.
Defined.

End ExplorerSessionSpec.

(** ** The range scanner over a whole run *)

Module LiDARRunSpec.
Import LiDARProcess LiDARProcessSpec.

(** The batches put on the scan channel, in order. *)
Definition puts (trace : list event) : list (list point) :=
  omap (fun e => match e with Put batch => Some batch | _ => None end) trace.

Lemma count_app p l1 l2 : count p (l1 ++ l2) = (count p l1 + count p l2)%nat.
Proof. unfold count. by rewrite List.filter_app, length_app. Qed.

Lemma puts_app l1 l2 : puts (l1 ++ l2) = puts l1 ++ puts l2.
Proof. apply omap_app. Qed.

(** A sequence of device calls puts nothing and catches nothing. *)
Lemma attempt_quiet calls : forall failing,
  puts (attempt calls failing) = [] /\ count is_caught (attempt calls failing) = 0%nat.
Proof.
  induction calls as [|c calls IH]; intros [[|n]|]; simpl; try done; apply IH.
Qed.

Lemma _cleanup_lidar_quiet held failing :
  puts (_cleanup_lidar held failing) = [] /\
  count is_caught (_cleanup_lidar held failing) = 0%nat.
Proof.
  unfold _cleanup_lidar. destruct held; [|done].
  rewrite puts_app, count_app.
  destruct (attempt_quiet cleanup_calls failing) as [-> ->].
  by destruct (raises cleanup_calls failing).
Qed.

Lemma backoff_quiet n : puts (backoff n) = [] /\ count is_caught (backoff n) = 0%nat.
Proof. unfold backoff. by destruct (n <? max_retries). Qed.

Lemma puts_scan_steps scans :
  puts (concat (map scan_step scans)) = omap _process_scan scans.
Proof.
  induction scans as [|scan scans IH]; [done|].
  simpl. rewrite puts_app, IH. unfold scan_step.
  by destruct (_process_scan scan).
Qed.

Lemma count_caught_scan_steps scans :
  count is_caught (concat (map scan_step scans)) = 0%nat.
Proof.
  induction scans as [|scan scans IH]; [done|].
  simpl. rewrite count_app, IH. unfold scan_step.
  by destruct (_process_scan scan).
Qed.

(** The batches that one iteration puts: those of its scans, when the
    iteration reaches the streaming loop. *)
Lemma puts_iteration st r :
  puts (snd (fst (iteration st r))) =
  if lidar st || negb (raises init_calls (connect r))
  then omap _process_scan (scans r) else [].
Proof.
  assert (Hstream : forall st0,
            puts (snd (fst (streaming st0 r))) = omap _process_scan (scans r)).
  { intros st0. unfold streaming. destruct (ending r); simpl.
    - rewrite except_clause_spec; simpl. rewrite puts_app, puts_scan_steps; simpl.
      rewrite puts_app.
      destruct (_cleanup_lidar_quiet (lidar st0) (teardown r)) as [-> _].
      destruct (backoff_quiet (retry_count st0 + 1)) as [-> _].
      by rewrite app_nil_r.
    - apply puts_scan_steps.
    - apply puts_scan_steps. }
  unfold iteration, _init_lidar. destruct (lidar st) eqn:Hl; cbn [orb]; [apply Hstream|].
  cbv beta iota zeta.
  destruct (raises init_calls (connect r)); cbn [negb].
  - rewrite except_clause_spec. cbn [fst snd].
    change (Caught :: ?l) with ([Caught] ++ l). rewrite !puts_app.
    destruct (attempt_quiet init_calls (connect r)) as [-> _].
    destruct (_cleanup_lidar_quiet (lidar st) (teardown r)) as [-> _].
    by destruct (backoff_quiet (retry_count st + 1)) as [-> _].
  - specialize (Hstream {| retry_count := 0; lidar := true |}).
    destruct (streaming _ r) as [[st' evs'] o]; cbn [fst snd] in *.
    rewrite puts_app, Hstream.
    by destruct (attempt_quiet init_calls (connect r)) as [-> _].
Qed.

Lemma puts_loop script : forall st batch,
  batch ∈ puts (snd (loop st script)) ->
  exists r scan, r ∈ script /\ scan ∈ scans r /\ _process_scan scan = Some batch.
Proof.
  induction script as [|r script IH]; intros st batch; simpl.
  - intros H. by apply elem_of_nil in H.
  - destruct (negb (head_stop r) && (retry_count st <? max_retries)); simpl.
    + pose proof (puts_iteration st r) as Hit.
      destruct (iteration st r) as [[st' evs] o]; simpl in Hit.
      assert (Hevs : batch ∈ puts evs ->
                exists scan, scan ∈ scans r /\ _process_scan scan = Some batch).
      { rewrite Hit. destruct (_ || _); [|by intros H; apply elem_of_nil in H].
        intros H. by apply list_elem_of_omap in H. }
      destruct o.
      * specialize (IH st' batch).
        destruct (loop st' script) as [[s st''] evs']; simpl in *.
        rewrite puts_app, elem_of_app. intros [H|H].
        -- destruct (Hevs H) as (scan & ? & ?). exists r, scan. by repeat split; [left|..].
        -- destruct (IH H) as (r' & scan & ? & ? & ?). exists r', scan.
           by repeat split; [right|..].
      * simpl. rewrite puts_app, elem_of_app.
        destruct (_cleanup_lidar_quiet (lidar st') (teardown r)) as [-> _].
        intros [H|H]; [|by apply elem_of_nil in H].
        destruct (Hevs H) as (scan & ? & ?). exists r, scan. by repeat split; [left|..].
    + destruct (_cleanup_lidar_quiet (lidar st) (teardown r)) as [-> _].
      intros H. by apply elem_of_nil in H.
Qed.

(** X13.  Whatever happens during a run, every batch put on the scan channel is
    not empty and is the filtered, converted form of one scan that the
    device yielded. *)
Theorem every_put_is_a_filtered_scan (script : list round) (batch : list point) :
  In (Put batch) (snd (run script)) ->
  batch <> [] /\
  exists r scan, In r script /\ In scan (scans r) /\
    batch = map in_metres (List.filter passes scan).
Proof.
  intros Hin.
  assert (Hb : batch ∈ puts (snd (run script))).
  { apply list_elem_of_omap. exists (Put batch). split; [|done].
    by apply list_elem_of_In. }
  apply puts_loop in Hb as (r & scan & Hr & Hs & Hp).
  split; [by eapply _process_scan_nonempty|].
  exists r, scan. rewrite <- !list_elem_of_In.
  repeat split; try done. by apply _process_scan_batch.
Qed.

Lemma every_put_is_a_filtered_scan_witness :
  [(0%Q, (1000 / 1000)%Q)] <> [] /\
  exists r scan, In r [stream_fails] /\ In scan (scans r) /\
    [(0%Q, (1000 / 1000)%Q)] = map in_metres (List.filter passes scan).
Proof.
  apply (every_put_is_a_filtered_scan [stream_fails] [(0%Q, (1000 / 1000)%Q)]).
  vm_compute. do 8 right. by left.
Defined.

(** X14.  When [run] returns while it holds a device, the last thing it did is
    the teardown of that device. *)
Theorem return_tears_down_held_device (script : list round) :
  fst (fst (run script)) = Stopped ->
  lidar (snd (fst (run script))) = true ->
  exists before r, In r script /\
    snd (run script) = before ++ _cleanup_lidar true (teardown r).
Proof.
  unfold run. generalize {| retry_count := 0; lidar := false |}.
  induction script as [|r script IH]; intros st; simpl; [done|].
  destruct (negb (head_stop r) && (retry_count st <? max_retries)); simpl.
  - destruct (iteration st r) as [[st' evs] [|]]; simpl.
    + specialize (IH st').
      destruct (loop st' script) as [[s st''] evs']; simpl in *.
      intros Hs Hl. destruct (IH Hs Hl) as (before & r' & Hin & ->).
      exists (evs ++ before), r'. split; [by right|]. by rewrite <- app_assoc.
    + intros _ Hl. exists evs, r. split; [by left|]. by rewrite Hl.
  - intros _ Hl. exists [], r. split; [by left|]. by rewrite Hl.
Qed.

(** A round that streams two scans and then sees the stop event. *)
Definition stream_then_stop : round :=
  {| head_stop := false; connect := None;
     scans := [[(15, 0%Q, 1000%Q)]; [(3, 10%Q, 500%Q)]];
     ending := StreamStopped; teardown := None |}.

Lemma return_tears_down_held_device_witness :
  exists before r, In r [stream_then_stop] /\
    snd (run [stream_then_stop]) = before ++ _cleanup_lidar true (teardown r).
Proof.
  apply (return_tears_down_held_device [stream_then_stop]); reflexivity.
Defined.

(** A round in which the connection is attempted and fails. *)
Definition connect_fails (r : round) : Prop :=
  head_stop r = false /\ raises init_calls (connect r) = true.

(** A round in which the connection succeeds and the stream raises. *)
Definition connects_then_fails (r : round) : Prop :=
  head_stop r = false /\ raises init_calls (connect r) = false /\ ending r = StreamRaises.

Lemma loop_connect_fails script : forall st,
  Forall connect_fails script ->
  lidar st = false -> 0 <= retry_count st < max_retries ->
  count is_caught (snd (loop st script)) =
    (length script `min` Z.to_nat (max_retries - retry_count st))%nat /\
  (fst (fst (loop st script)) = Stopped <->
   (Z.to_nat (max_retries - retry_count st) <= length script)%nat).
Proof.
  induction script as [|r script IH]; intros st Hall Hl Hk.
  - cbn [loop fst snd length]. split; [done|]. split; [done|]. lia.
  - apply Forall_cons in Hall as [[Hh Hr] Hall].
    cbn [loop length]. rewrite Hh. cbn [negb andb].
    assert ((retry_count st <? max_retries) = true) as -> by (apply Z.ltb_lt; lia).
    rewrite (connect_exception st r Hl Hr). unfold verdict.
    assert (Hcount : count is_caught
              (attempt init_calls (connect r) ++ Caught :: backoff (retry_count st + 1)) = 1%nat).
    { rewrite count_app.
      destruct (attempt_quiet init_calls (connect r)) as [_ ->].
      change (Caught :: ?l) with ([Caught] ++ l). rewrite count_app.
      by destruct (backoff_quiet (retry_count st + 1)) as [_ ->]. }
    destruct (retry_count st + 1 <? max_retries) eqn:Hlt;
      [apply Z.ltb_lt in Hlt | apply Z.ltb_ge in Hlt].
    + destruct (IH {| retry_count := retry_count st + 1; lidar := false |} Hall eq_refl)
        as [IHc IHs]; [cbn [retry_count]; lia|].
      cbn [retry_count] in IHc, IHs.
      destruct (loop _ script) as [[s st''] evs']; cbn [fst snd] in *.
      rewrite count_app, Hcount, IHc, IHs. split; lia.
    + cbn [fst snd lidar _cleanup_lidar]. rewrite app_nil_r, Hcount.
      split; [lia|]. split; [lia|done].
Qed.

(** X15.  Bounded retries: when every connection attempt fails, the worker
    catches one exception per attempt, gives up after the fifth and has
    then returned; it has not returned before. *)
Theorem failing_connections_stop_after_five (script : list round) :
  Forall connect_fails script ->
  count is_caught (snd (run script)) = (length script `min` 5)%nat /\
  (fst (fst (run script)) = Stopped <-> (5 <= length script)%nat).
Proof.
  intros Hall. unfold run.
  apply (loop_connect_fails script {| retry_count := 0; lidar := false |});
    simpl; unfold max_retries; (done || lia).
Qed.

Lemma failing_connections_stop_after_five_witness :
  count is_caught (snd (run (repeat health_fails 7))) = 5%nat /\
  (fst (fst (run (repeat health_fails 7))) = Stopped <-> (5 <= 7)%nat).
Proof.
  apply (failing_connections_stop_after_five (repeat health_fails 7)).
  repeat constructor.
Defined.

Lemma count_caught_stream_exception c scans t n :
  count is_caught
    (attempt init_calls c ++ (Returned iter_scans :: concat (map scan_step scans)) ++
     Raised iter_scans :: Caught ::
     (attempt cleanup_calls t ++ (if raises cleanup_calls t then [CleanupError] else [])) ++
     backoff n) = 1%nat.
Proof.
  change (Returned iter_scans :: ?l) with ([Returned iter_scans] ++ l).
  change (Raised iter_scans :: Caught :: ?l) with ([Raised iter_scans; Caught] ++ l).
  rewrite !count_app, count_caught_scan_steps.
  destruct (attempt_quiet init_calls c) as [_ ->].
  destruct (attempt_quiet cleanup_calls t) as [_ ->].
  destruct (backoff_quiet n) as [_ ->].
  by destruct (raises cleanup_calls t).
Qed.

Lemma loop_connects_then_fails script : forall st,
  Forall connects_then_fails script ->
  lidar st = false -> retry_count st < max_retries ->
  fst (fst (loop st script)) = Running /\
  count is_caught (snd (loop st script)) = length script /\
  (script <> [] -> retry_count (snd (fst (loop st script))) = 1).
Proof.
  induction script as [|r script IH]; intros st Hall Hl Hk; [done|].
  apply Forall_cons in Hall as [(Hh & Hr & He) Hall].
  cbn [loop length]. rewrite Hh. cbn [negb andb].
  assert ((retry_count st <? max_retries) = true) as -> by (apply Z.ltb_lt; lia).
  pose proof (stream_exception st r He (or_intror Hr)) as Hit.
  rewrite Hl in Hit. cbv zeta in Hit. rewrite Hit.
  change (verdict (0 + 1)) with Continue. cbv beta iota.
  destruct (IH {| retry_count := 0 + 1; lidar := false |} Hall eq_refl)
    as (IHs & IHc & IHk); [cbn [retry_count]; unfold max_retries; lia|].
  assert (Hk1 : retry_count (snd (fst (loop {| retry_count := 0 + 1; lidar := false |} script))) = 1).
  { destruct script as [|r' script']; [reflexivity|]. by apply IHk. }
  destruct (loop _ script) as [[s st''] evs']; cbn [fst snd] in *.
  split; [done|]. split; [|done].
  by rewrite count_app, count_caught_stream_exception, IHc.
Qed.

(** X16.  The reset of the counter defeats the bound: when every connection
    succeeds and every stream raises, one exception is caught per round,
    the counter is back at 1 after each, and [run] never returns. *)
Theorem reset_lets_stream_failures_repeat (script : list round) :
  Forall connects_then_fails script ->
  fst (fst (run script)) = Running /\
  count is_caught (snd (run script)) = length script /\
  (script <> [] -> retry_count (snd (fst (run script))) = 1).
Proof.
  intros Hall. unfold run.
  apply (loop_connects_then_fails script {| retry_count := 0; lidar := false |});
    simpl; unfold max_retries; (done || lia).
Qed.

Lemma reset_lets_stream_failures_repeat_witness :
  fst (fst (run (repeat stream_fails 9))) = Running /\
  count is_caught (snd (run (repeat stream_fails 9))) = 9%nat /\
  (repeat stream_fails 9 <> [] -> retry_count (snd (fst (run (repeat stream_fails 9)))) = 1).
Proof.
  apply (reset_lets_stream_failures_repeat (repeat stream_fails 9)).
  repeat constructor.
Defined.

End LiDARRunSpec.

(** ** The camera worker *)

Module CameraProcessSpec.
Import CameraProcess.

(** The frames that the loop puts: the encoded frames seen before the
    first stop or exception. *)
Fixpoint frames_before_exit (ticks : list tick) : list string :=
  match ticks with
  | [] | StopSet :: _ | CaptureRaises :: _ | EncodeRaises :: _ => []
  | Frame (Some frame_data) :: rest => frame_data :: frames_before_exit rest
  | Frame None :: rest => frames_before_exit rest
  end.

Lemma frames_app l1 l2 : frames (l1 ++ l2) = frames l1 ++ frames l2.
Proof. apply omap_app. Qed.

Lemma frames_attempt calls : forall failing, frames (fst (attempt calls failing)) = [].
Proof.
  induction calls as [|c calls IH]; intros [[|n]|]; simpl; try done.
  - specialize (IH (Some n)). by destruct (attempt calls (Some n)).
  - specialize (IH None). by destruct (attempt calls None).
Qed.

Lemma frames_loop ticks : frames (fst (loop ticks)) = frames_before_exit ticks.
Proof.
  induction ticks as [|[|[frame_data|]| |] ticks IH]; simpl; try done.
  - destruct (loop ticks) as [evs e]; simpl in *. by rewrite IH.
  - destruct (loop ticks) as [evs e]; simpl in *. by rewrite IH.
Qed.

Lemma attempt_bound s :
  snd (attempt setup_calls (setup s)) = false -> camera_bound s = false ->
  fst (attempt setup_calls (setup s)) = [Raised Picamera2].
Proof.
  unfold camera_bound. destruct (setup s) as [[|n]|]; try done.
Qed.

(** X17.  The frames put on the data channel are, in order, the frames that
    were captured and encoded before the loop ended; when a call before
    the loop raises, none is put. *)
Theorem frames_put_in_order (s : script) :
  frames (fst (run s)) =
  if snd (attempt setup_calls (setup s)) then frames_before_exit (ticks s) else [].
Proof.
  unfold run. pose proof (frames_attempt setup_calls (setup s)) as Hsetup.
  destruct (attempt setup_calls (setup s)) as [evs [|]]; simpl in *.
  - pose proof (frames_loop (ticks s)) as Hloop.
    destruct (loop (ticks s)) as [evs' [| |]]; simpl in *.
    + destruct (stop_returns s); simpl; rewrite !frames_app, Hsetup, Hloop; simpl;
        by rewrite app_nil_r.
    + destruct (stop_returns s); simpl; rewrite !frames_app, Hsetup, Hloop; simpl;
        by rewrite app_nil_r.
    + by rewrite frames_app, Hsetup, Hloop.
  - unfold finally_clause.
    destruct (camera_bound s), (stop_returns s); simpl;
      rewrite frames_app, Hsetup; done.
Qed.

(** X18.  On every exit of [run] the camera is stopped when there is one: if
    [Picamera2()] returned, the last call of the trace is
    [camera.stop()], and [run] returns unless that call raises; if the
    constructor raised, it is the only call. *)
Theorem camera_stopped_on_exit (s : script) :
  snd (run s) <> StillRunning ->
  if camera_bound s then
    exists before,
      (fst (run s) = before ++ [Returned stop] /\ snd (run s) = Returns /\
       stop_returns s = true) \/
      (fst (run s) = before ++ [Raised stop] /\ snd (run s) = Escapes /\
       stop_returns s = false)
  else run s = ([Raised Picamera2; Caught], Returns).
Proof.
  unfold run.
  pose proof (attempt_bound s) as Hb.
  assert (Hok : snd (attempt setup_calls (setup s)) = true -> camera_bound s = true).
  { unfold camera_bound. by destruct (setup s) as [[|n]|]. }
  destruct (attempt setup_calls (setup s)) as [evs [|]]; simpl in *.
  - rewrite Hok by done.
    destruct (loop (ticks s)) as [evs' [| |]]; simpl; [| |done]; intros _;
      unfold finally_clause; destruct (stop_returns s); simpl.
    + exists (evs ++ evs'). left. by rewrite <- app_assoc.
    + exists (evs ++ evs'). right. by rewrite <- app_assoc.
    + exists (evs ++ evs' ++ [Caught]). left.
      by rewrite <- !app_assoc.
    + exists (evs ++ evs' ++ [Caught]). right.
      by rewrite <- !app_assoc.
  - intros _. unfold finally_clause.
    destruct (camera_bound s) eqn:Hbound.
    + destruct (stop_returns s); simpl.
      * exists (evs ++ [Caught]). left. by rewrite <- app_assoc.
      * exists (evs ++ [Caught]). right. by rewrite <- app_assoc.
    + by rewrite Hb.
Qed.

(** Two frames are put, then [capture_array] raises. *)
Definition capture_fails : script :=
  {| setup := None;
     ticks := [Frame (Some "aGVsbG8="); Frame None; Frame (Some "d29ybGQ="); CaptureRaises];
     stop_returns := true |}.

Lemma camera_stopped_on_exit_witness :
  exists before,
    (fst (run capture_fails) = before ++ [Returned stop] /\ snd (run capture_fails) = Returns /\
     stop_returns capture_fails = true) \/
    (fst (run capture_fails) = before ++ [Raised stop] /\ snd (run capture_fails) = Escapes /\
     stop_returns capture_fails = false).
Proof. apply (camera_stopped_on_exit capture_fails). discriminate. Defined.

End CameraProcessSpec.

(** ** The drive worker over any run *)

Module MotorRunSpec.
Import MotorProcess MotorProcessSpec.

(** X19.  Whatever the commands and the hardware, [MotorProcess.run] performs
    no motor command, no stop and no release: its trace holds logged
    exceptions only.  A [Move] put on the command channel is never
    executed. *)
Theorem no_command_is_executed (s : script) :
  Forall (fun e => exists x, e = Logged x) (fst (run s)).
Proof.
  unfold run, run_with. destruct (gpio s).
  - rewrite finally_methods.
    destruct (loop_methods (ticks s)) as [Hevs Hend].
    destruct (loop methods (ticks s)) as [evs e]; simpl in *; subst evs.
    destruct e; simpl; repeat constructor. by eexists.
  - simpl. repeat constructor. by eexists.
Qed.

End MotorRunSpec.
